(** * GeoScattering: a shallow embedding of
      [karateclub/graph_embedding/geoscattering.py]

    The estimator computes, for every graph of a collection, a row of
    moments of graph wavelets applied to three structural node features.

    Conventions of the embedding.
    - Python [int]s ([order], [moments], loop counters, exponents) are [Z];
      [range] is the list of the integers it yields.
    - [float64] entries are modelled by real numbers: rounding, overflow and
      NaN are outside the model, every arithmetic operation is exact.  Where
      rounding decides a property, the construction of the normalized
      operator is embedded a second time in binary64 (the definitions named
      [..._f64], on the primitive floats).
    - A raised exception is the [Raise] branch of [result]; the exception
      classes are those the interpreter and the libraries really raise
      ([ZeroDivisionError] for a zero degree, [NetworkXError] for an
      infinite path length).
    - A SciPy sparse matrix is the list of its rows, absent entries being
      [0]; a one-dimensional array is a list.
    - The progress bar of [tqdm] and the [print] of the feature shape write
      to the terminal and change no value: they are left out. *)

From Stdlib Require Import List ZArith Lia Bool Arith PeanoNat.
From Stdlib Require Import Reals Lra Permutation.
From Stdlib Require Import PrimFloat SpecFloat FloatOps Uint63.
Import ListNotations.

Open Scope R_scope.

(** ** Exceptions and the error monad *)

Inductive exn : Type :=
| ZeroDivisionError      (* float division by zero *)
| NetworkXError          (* networkx: null graph, infinite path length *)
| IndexError             (* list index out of range *)
| ValueError             (* dimension mismatch in [dot] *)
| AttributeError         (* attribute read before it was ever assigned *)
| InputCheckError.       (* whatever [Estimator._check_graphs] rejects *)

Inductive result (A : Type) : Type :=
| Ok (a : A)
| Raise (e : exn).

Arguments Ok {A} a.
Arguments Raise {A} e.

Definition bind {A B} (c : result A) (k : A -> result B) : result B :=
  match c with
  | Ok a => k a
  | Raise e => Raise e
  end.

Notation "x <- c ;; k" := (bind c (fun x => k))
  (at level 61, c at next level, right associativity).

(** A list comprehension whose element expression may raise: elements are
    evaluated left to right and the first exception aborts the whole list. *)
Fixpoint mapM {A B} (f : A -> result B) (l : list A) : result (list B) :=
  match l with
  | [] => Ok []
  | a :: l' => b <- f a ;; bs <- mapM f l' ;; Ok (b :: bs)
  end.

(** A [for] loop over [l] whose body updates the loop state [s]. *)
Definition for_each {A S} (l : list A) (body : A -> S -> S) (s : S) : S :=
  fold_left (fun s a => body a s) l s.

(** The same loop when the body may raise. *)
Fixpoint forM {A S} (l : list A) (body : A -> S -> result S) (s : S)
  : result S :=
  match l with
  | [] => Ok s
  | a :: l' => s' <- body a s ;; forM l' body s'
  end.

(** [range(lo, hi)]; [range(hi)] is [range 0 hi]. *)
Definition range (lo hi : Z) : list Z :=
  map (fun k => (lo + Z.of_nat k)%Z) (seq 0 (Z.to_nat (hi - lo))).

(** [l[i]] on a Python list: a negative index counts from the end, an index
    out of range raises. *)
Definition getitem {A} (l : list A) (i : Z) : result A :=
  let len := Z.of_nat (length l) in
  let k := if (i <? 0)%Z then (len + i)%Z else i in
  if (k <? 0)%Z then Raise IndexError
  else match nth_error l (Z.to_nat k) with
       | Some a => Ok a
       | None => Raise IndexError
       end.

(** ** One-dimensional arrays *)

Definition vector := list R.

Definition np_sum (x : vector) : R := fold_right Rplus 0 x.
Definition np_abs (x : vector) : vector := map Rabs x.

(** [np.power(x, q)] for an integer exponent; every exponent the estimator
    passes comes from a [range] that starts at 1. *)
Definition np_power (x : vector) (q : Z) : vector :=
  map (fun v => v ^ Z.to_nat q) x.

Fixpoint map2 {A B C} (f : A -> B -> C) (l : list A) (l' : list B) : list C :=
  match l, l' with
  | a :: t, b :: t' => f a b :: map2 f t t'
  | _, _ => []
  end.

Definition vadd (x y : vector) : vector := map2 Rplus x y.
Definition vscale (c : R) (x : vector) : vector := map (Rmult c) x.
Definition inner (x y : vector) : R := np_sum (map2 Rmult x y).

(** ** Sparse matrices, by rows *)

Definition matrix := list (list R).

Definition has_shape (r c : nat) (M : matrix) : Prop :=
  length M = r /\ Forall (fun row => length row = c) M.

(** [sparse.identity(n)] *)
Definition identity (n : nat) : matrix :=
  map (fun i => map (fun j => if (i =? j)%nat then 1 else 0) (seq 0 n))
      (seq 0 n).

(** [sparse.coo_matrix((values, (index, index)), shape=(n, n))] with
    [index = arange(n)]: the diagonal matrix of [values]. *)
Definition coo_diagonal (values : vector) : matrix :=
  let n := length values in
  map (fun i => map (fun j => if (i =? j)%nat then nth i values 0 else 0)
                    (seq 0 n))
      (seq 0 n).

Definition madd (M N : matrix) : matrix := map2 vadd M N.
Definition msub (M N : matrix) : matrix := map2 (map2 Rminus) M N.
Definition mscale (c : R) (M : matrix) : matrix := map (vscale c) M.

(** Row [i] of a product is the combination of the rows of [N] weighted by
    row [i] of [M]. *)
Definition row_times (c : nat) (row : vector) (N : matrix) : vector :=
  fold_right vadd (repeat 0 c) (map2 vscale row N).

(** [M.dot(N)] for two sparse matrices. *)
Definition mdot (c : nat) (M N : matrix) : matrix :=
  map (fun row => row_times c row N) M.

(** [M.dot(x)] for a sparse matrix and a one-dimensional array; SciPy
    raises [ValueError] when the number of columns is not [len(x)]. *)
Definition dot (M : matrix) (x : vector) : result vector :=
  if forallb (fun row => (length row =? length x)%nat) M
  then Ok (map (fun row => inner row x) M)
  else Raise ValueError.

(** [M.power(n)] of [scipy.sparse]: every stored entry is raised to the
    power [n]; absent entries stay absent.  This is the element-wise
    power. *)
Definition power (M : matrix) (n : Z) : matrix :=
  map (map (fun a => a ^ Z.to_nat n)) M.

(** The matrix power [M^n = M . M . ... . M], for comparison. *)
Fixpoint matrix_power (M : matrix) (n : nat) : matrix :=
  match n with
  | O => identity (length M)
  | S k => mdot (length M) M (matrix_power M k)
  end.

(** ** Graphs

    A [networkx.Graph] whose nodes are the integers [0 .. n-1], held the
    way networkx holds it: node [v] maps to the collection of its
    neighbours; edges carry no weight.  networkx keeps that collection
    free of repetitions and symmetric ([undirected]); a [simple] graph has
    no self-loop either. *)

Definition graph := list (list nat).

Definition number_of_nodes (g : graph) : nat := length g.
Definition neighbors (g : graph) (v : nat) : list nat := nth v g [].
Definition mem (v : nat) (l : list nat) : bool := existsb (Nat.eqb v) l.

(** [graph.degree[v]]: the number of neighbours, a self-loop counting
    twice. *)
Definition degree (g : graph) (v : nat) : nat :=
  (length (neighbors g v) + (if mem v (neighbors g v) then 1 else 0))%nat.

Fixpoint nodupb (l : list nat) : bool :=
  match l with
  | [] => true
  | a :: t => negb (mem a t) && nodupb t
  end.

Definition undirected (g : graph) : bool :=
  forallb (fun v =>
             nodupb (neighbors g v) &&
             forallb (fun w => (w <? number_of_nodes g)%nat
                               && mem v (neighbors g w))
                     (neighbors g v))
          (seq 0 (number_of_nodes g)).

Definition simple (g : graph) : bool :=
  undirected g &&
  forallb (fun v => negb (mem v (neighbors g v))) (seq 0 (number_of_nodes g)).

(** Paths: [reachable g u v] when a walk along edges leads from [u] to
    [v]. *)
Inductive reachable (g : graph) (u : nat) : nat -> Prop :=
| reach_refl : reachable g u u
| reach_step v w : reachable g u v -> In w (neighbors g v) -> reachable g u w.

(** Connectivity is defined for graphs with at least one node. *)
Definition connected (g : graph) : Prop :=
  (0 < number_of_nodes g)%nat /\
  forall u v, (u < number_of_nodes g)%nat -> (v < number_of_nodes g)%nat ->
              reachable g u v.

Definition disconnected (g : graph) : Prop :=
  exists u v, (u < number_of_nodes g)%nat /\ (v < number_of_nodes g)%nat /\
              ~ reachable g u v.

(** [nx.adjacency_matrix(graph, nodelist=range(n))]: entry [(i, j)] is 1
    when [j] is a neighbour of [i].  networkx raises on an empty node
    list. *)
Definition adjacency_matrix (g : graph) : result matrix :=
  let n := number_of_nodes g in
  if (n =? 0)%nat then Raise NetworkXError
  else Ok (map (fun i => map (fun j => if mem j (neighbors g i) then 1 else 0)
                             (seq 0 n))
               (seq 0 n)).

(** Breadth-first search, as networkx's [_single_shortest_path_length]:
    [scan seen ws] walks over the candidate nodes [ws] and keeps those not
    seen yet, marking them seen on the way. *)
Fixpoint scan (seen : list nat) (ws : list nat) : list nat :=
  match ws with
  | [] => []
  | w :: ws' => if mem w seen then scan seen ws'
                else w :: scan (w :: seen) ws'
  end.

(** One turn of the [while nextlevel] loop per unit of fuel; [dist] is the
    dictionary node -> distance built so far, in insertion order. *)
Fixpoint bfs_loop (g : graph) (fuel : nat) (dist : list (nat * nat))
         (thislevel : list nat) (level : nat) : list (nat * nat) :=
  match fuel with
  | O => dist
  | S fuel' =>
      match thislevel with
      | [] => dist
      | _ =>
          let nextlevel :=
            scan (map fst dist) (flat_map (neighbors g) thislevel) in
          bfs_loop g fuel'
                   (dist ++ map (fun w => (w, S level)) nextlevel)
                   nextlevel (S level)
      end
  end.

(** [nx.shortest_path_length(G, source=v)]: at most [n - 1] levels follow
    the source, so [n] turns of the loop are enough. *)
Definition shortest_path_length (g : graph) (v : nat) : list (nat * nat) :=
  bfs_loop g (number_of_nodes g) [(v, O)] [v] O.

(** [nx.eccentricity(G, v)]: raises when some node was not reached. *)
Definition eccentricity (g : graph) (v : nat) : result nat :=
  let length_ := shortest_path_length g v in
  if (length length_ =? number_of_nodes g)%nat
  then Ok (fold_right Nat.max O (map snd length_))
  else Raise NetworkXError.

(** [nx.clustering(G, v)]: with [vs] the neighbours of [v] other than [v]
    and [t] the number of ordered pairs of adjacent nodes in [vs], the
    result is [0] when [t = 0] and [t / (d * (d - 1))] otherwise. *)
Definition clustering (g : graph) (v : nat) : R :=
  let vs := filter (fun w => negb (w =? v)%nat) (neighbors g v) in
  let d := length vs in
  let t := list_sum
             (map (fun w =>
                     length (filter (fun u => negb (u =? w)%nat
                                              && mem u (neighbors g w)) vs))
                  vs) in
  if (t =? 0)%nat then 0 else INR t / INR (d * (d - 1)).

(** ** Dense arrays of the estimator

    The node feature matrix [X] is read by the code through [X.shape[1]]
    and [X[:, col]] only, and is built by joining three columns: it is
    held as the list of its columns.  The feature blocks are built by
    [reshape(1, -1)] and joined along axis 1: they are held as lists of
    rows. *)

Definition columns := list vector.

(** [np.concatenate(blocks, axis=1)] on arrays held by rows; every block
    the estimator joins has the single row [reshape(1, -1)] gave it. *)
Definition concatenate_axis1 (blocks : list matrix) : matrix :=
  match blocks with
  | [] => []
  | b :: bs => fold_left (map2 (@app R)) bs b
  end.

(** What [np.array] returns on a list of two-dimensional arrays of one
    shape: a three-dimensional array, and the empty one-dimensional array
    on the empty list. *)
Inductive ndarray : Type :=
| array1 (v : list R)
| array2 (m : list (list R))
| array3 (t : list (list (list R))).

Definition np_array (l : list matrix) : ndarray :=
  match l with
  | [] => array1 []
  | _ => array3 l
  end.

Definition ndim (a : ndarray) : nat :=
  match a with
  | array1 _ => 1
  | array2 _ => 2
  | array3 _ => 3
  end.

(** ** The estimator *)

(** The base class [karateclub.estimator.Estimator] is not part of the
    sources at hand; [fit] calls its [_check_graphs], which returns or
    raises. *)
Class Estimator : Type := {
  _check_graphs : list graph -> result unit
}.

Record GeoScattering : Type := {
  order : Z;
  moments : Z;
  _embedding : option (list matrix)   (* [None]: attribute not created *)
}.

Definition __init__ (order moments : Z) : GeoScattering :=
  {| order := order; moments := moments; _embedding := None |}.

Definition set_embedding (self : GeoScattering) (e : list matrix)
  : GeoScattering :=
  {| order := order self; moments := moments self; _embedding := Some e |}.

Definition nodes (g : graph) : list nat := seq 0 (number_of_nodes g).

(** The quotient [1.0 / degree] is taken exact here, as every operation on
    reals; [_create_D_inverse_f64] below is the same function with the
    binary64 quotient. *)
Definition _create_D_inverse (graph : graph) : result matrix :=
  values <- mapM (fun node =>
                    if (degree graph node =? 0)%nat
                    then Raise ZeroDivisionError
                    else Ok (1 / INR (degree graph node)))
                 (nodes graph) ;;
  Ok (coo_diagonal values).

Definition _get_normalized_adjacency (graph : graph) : result matrix :=
  A <- adjacency_matrix graph ;;
  D_inverse <- _create_D_inverse graph ;;
  let n := number_of_nodes graph in
  let A_hat := madd (identity n) (mdot n D_inverse A) in
  Ok (mscale 0.5 A_hat).

Definition _calculate_wavelets (self : GeoScattering) (A_hat : matrix)
  : list matrix :=
  map (fun power_ =>
         msub (power A_hat (2 ^ power_)) (power A_hat (2 ^ (power_ + 1))))
      (range 0 (order self + 1)).

Definition _create_node_feature_matrix (graph : graph) : result columns :=
  let log_degree :=
    map (fun node => ln (INR (degree graph node + 1))) (nodes graph) in
  eccentricity_ <- mapM (fun node => e <- eccentricity graph node ;;
                                     Ok (INR e))
                        (nodes graph) ;;
  let clustering_coefficient := map (clustering graph) (nodes graph) in
  Ok [log_degree; eccentricity_; clustering_coefficient].

(** [np.sum(np.power(np.abs(y), q))] *)
Definition moment (y : vector) (q : Z) : R :=
  np_sum (np_power (np_abs y) q).

Definition _get_zero_order_features (self : GeoScattering) (X : columns)
  : matrix :=
  let X := map np_abs X in
  let features :=
    for_each (seq 0 (length X)) (fun col features =>
      let x := np_abs (nth col X []) in
      for_each (range 1 (order self + 1)) (fun power_ features =>
        features ++ [np_sum (np_power x power_)]) features) [] in
  [features].

Definition _get_first_order_features (self : GeoScattering)
           (Psi : list matrix) (X : columns) : result matrix :=
  let X := map np_abs X in
  features <-
    forM (seq 0 (length X)) (fun col features =>
      let x := np_abs (nth col X []) in
      forM Psi (fun psi features =>
        filtered_x <- dot psi x ;;
        Ok (for_each (range 1 (moments self)) (fun q features =>
              features ++ [np_sum (np_power (np_abs filtered_x) q)])
              features)) features) [] ;;
  Ok [features].

Definition _get_second_order_features (self : GeoScattering)
           (Psi : list matrix) (X : columns) : result matrix :=
  let X := map np_abs X in
  features <-
    forM (seq 0 (length X)) (fun col features =>
      let x := np_abs (nth col X []) in
      forM (range 0 (order self - 1)) (fun i features =>
        forM (range (i + 1) (order self)) (fun j features =>
          psi_j <- getitem Psi i ;;
          psi_j_prime <- getitem Psi j ;;
          inner_x <- dot psi_j x ;;
          outer_x <- dot psi_j_prime (np_abs inner_x) ;;
          let filtered_x := np_abs outer_x in
          Ok (for_each (range 1 (moments self)) (fun q features =>
                features ++ [np_sum (np_power (np_abs filtered_x) q)])
                features)) features) features) [] ;;
  Ok [features].

Definition _calculate_geoscattering (self : GeoScattering) (graph : graph)
  : result matrix :=
  A_hat <- _get_normalized_adjacency graph ;;
  let Psi := _calculate_wavelets self A_hat in
  X <- _create_node_feature_matrix graph ;;
  let zero_order_features := _get_zero_order_features self X in
  first_order_features <- _get_first_order_features self Psi X ;;
  second_order_features <- _get_second_order_features self Psi X ;;
  Ok (concatenate_axis1
        [zero_order_features; first_order_features; second_order_features]).

(** [fit] returns the estimator after the call together with the outcome:
    the attribute [_embedding] is assigned once the whole list
    comprehension has been evaluated, so an exception leaves the estimator
    as it was. *)
Definition fit `{Estimator} (self : GeoScattering) (graphs : list graph)
  : GeoScattering * result unit :=
  match _check_graphs graphs with
  | Raise e => (self, Raise e)
  | Ok _ =>
      match mapM (_calculate_geoscattering self) graphs with
      | Raise e => (self, Raise e)
      | Ok rows => (set_embedding self rows, Ok tt)
      end
  end.

Definition get_embedding (self : GeoScattering) : result ndarray :=
  match _embedding self with
  | None => Raise AttributeError
  | Some rows => Ok (np_array rows)
  end.

(** ** The feature blocks in closed form

    What the three aggregation loops compute when no exception occurs,
    written as comprehensions; the theorems below relate the loops to
    them. *)

(** The product of a matrix and a one-dimensional array, as [dot] returns
    it when the dimensions agree. *)
Definition mv (M : matrix) (x : vector) : vector :=
  map (fun row => inner row x) M.

(** For each column, the moments [q = 1 .. order] of the absolute values. *)
Definition zero_order_block (order : Z) (X : columns) : vector :=
  flat_map (fun x =>
              map (fun q => np_sum (map (fun v => Rabs v ^ Z.to_nat q) x))
                  (range 1 (order + 1)))
           X.

(** For each column and each wavelet, the moments [q = 1 .. moments-1] of
    the filtered column. *)
Definition first_order_block (moments : Z) (Psi : list matrix) (X : columns)
  : vector :=
  flat_map (fun x =>
              flat_map (fun psi =>
                          map (fun q => np_sum (map (fun v => Rabs v ^ Z.to_nat q)
                                                    (mv psi (np_abs x))))
                              (range 1 moments))
                       Psi)
           X.

(** The index pairs visited by the loop nest
    [for i in range(order-1): for j in range(i+1, order)], in order. *)
Definition pairs (order : Z) : list (Z * Z) :=
  flat_map (fun i => map (pair i) (range (i + 1) order)) (range 0 (order - 1)).

(** The cascade [|Psi_j . |Psi_i . x||]. *)
Definition cascade (Psi : list matrix) (i j : Z) (x : vector) : vector :=
  np_abs (mv (nth (Z.to_nat j) Psi [])
             (np_abs (mv (nth (Z.to_nat i) Psi []) x))).

(** For each column and each pair, the moments [q = 1 .. moments-1] of the
    cascade. *)
Definition second_order_block (order moments : Z) (Psi : list matrix)
           (X : columns) : vector :=
  flat_map (fun x =>
              flat_map (fun ij =>
                          map (fun q => np_sum (map (fun v => Rabs v ^ Z.to_nat q)
                                                    (cascade Psi (fst ij) (snd ij)
                                                             (np_abs x))))
                              (range 1 moments))
                       (pairs order))
           X.

(** The number of features of one graph, for any two integers. *)
Definition feature_length (order moments : Z) : nat :=
  (3 * Z.to_nat order
   + 3 * Z.to_nat (order + 1) * Z.to_nat (moments - 1)
   + 3 * length (pairs order) * Z.to_nat (moments - 1))%nat.

(** ** The wavelet bank in the words of the specification *)


(** The bank with matrix powers, [Psi_k = A^(2^k) - A^(2^(k+1))] where
    [A^m] is the product of [m] copies of [A]. *)
Definition wavelets_by_matrix_power (order : Z) (A_hat : matrix)
  : list matrix :=
  map (fun k => msub (matrix_power A_hat (Z.to_nat (2 ^ k)))
                     (matrix_power A_hat (Z.to_nat (2 ^ (k + 1)))))
      (range 0 (order + 1)).

(** The path on two nodes, and its normalized operator. *)
Definition K2 : graph := [[1%nat]; [0%nat]].
Definition A_hat_K2 : matrix := [[0.5; 0.5]; [0.5; 0.5]].

(** ** The normalized operator in closed form *)

(** Entry [(i, j)] of [0.5 * (I + D^-1 A)]. *)
Definition normalized_operator (g : graph) : matrix :=
  map (fun i =>
         map (fun j => 0.5 * ((if (i =? j)%nat then 1 else 0)
                              + 1 / INR (degree g i)
                                * (if mem j (neighbors g i) then 1 else 0)))
             (seq 0 (number_of_nodes g)))
      (seq 0 (number_of_nodes g)).

(** ** The invariant of the breadth-first search *)

Definition keys (dist : list (nat * nat)) : list nat := map fst dist.

(** While the search from [src] runs: the nodes met so far are distinct
    nodes of the graph reachable from [src], the current level is among
    them, and every node met earlier than the current level has all its
    neighbours met. *)
Record bfs_inv (g : graph) (src : nat) (dist : list (nat * nat))
       (thislevel : list nat) : Prop := {
  inv_nodup : NoDup (keys dist);
  inv_sound : forall x, In x (keys dist) ->
                        (x < number_of_nodes g)%nat /\ reachable g src x;
  inv_level : forall x, In x thislevel -> In x (keys dist);
  inv_closed : forall x w, In x (keys dist) -> ~ In x thislevel ->
                           In w (neighbors g x) -> In w (keys dist);
  inv_source : In src (keys dist)
}.

(** The feature row of one graph: the three blocks side by side. *)
Definition feature_row (self : GeoScattering) (A_hat : matrix) (X : columns)
  : vector :=
  let Psi := _calculate_wavelets self A_hat in
  (zero_order_block (order self) X
   ++ first_order_block (moments self) Psi X)
  ++ second_order_block (order self) (moments self) Psi X.

(** The eccentricity column entry of a node, [0] standing for "raised". *)
Definition eccentricity_value (g : graph) (v : nat) : R :=
  match eccentricity g v with
  | Ok e => INR e
  | Raise _ => 0
  end.

(** ** Collections of graphs and sequences of calls *)

(** The collection [l] read at the positions [idx]; a permutation of the
    collection is [reorder idx l] for [idx] a permutation of
    [0 .. len(l) - 1]. *)
Definition reorder {A} (idx : list nat) (l : list A) : list A :=
  flat_map (fun i => match nth_error l i with
                     | Some a => [a]
                     | None => []
                     end) idx.

(** Successive calls of [fit] on one estimator, with their outcomes. *)
Fixpoint fit_all `{Estimator} (self : GeoScattering)
         (calls : list (list graph)) : GeoScattering * list (result unit) :=
  match calls with
  | [] => (self, [])
  | graphs :: calls' =>
      let (self', outcome) := fit self graphs in
      let (self'', outcomes) := fit_all self' calls' in
      (self'', outcome :: outcomes)
  end.

(** An input check that accepts every collection. *)
Definition accept_all : Estimator := {| _check_graphs := fun _ => Ok tt |}.

(** Two disjoint edges: every degree is 1, the graph is not connected. *)
Definition two_edges : graph := [[1%nat]; [0%nat]; [3%nat]; [2%nat]].

(** A single node without any edge. *)
Definition isolated_node : graph := [[]].

(** The collection of the last call of [fit] that completes, among
    successive calls on an estimator with the hyperparameters of [self]. *)
Fixpoint last_completed `{Estimator} (self : GeoScattering)
         (calls : list (list graph)) : option (list graph) :=
  match calls with
  | [] => None
  | graphs :: calls' =>
      match last_completed self calls' with
      | Some c => Some c
      | None => match snd (fit self graphs) with
                | Ok _ => Some graphs
                | Raise _ => None
                end
      end
  end.

(** The path on three nodes. *)
Definition P3 : graph := [[1%nat]; [0%nat; 2%nat]; [1%nat]].

(** ** The normalized operator in binary64

    The same construction with the arithmetic of [float64]: the quotient
    [1.0 / degree], the products and the sums are the IEEE 754 binary64
    operations.  An absent entry of a sparse matrix is the float [0]:
    adding it or multiplying by it is exact, so that the rows computed here
    hold the values SciPy stores. *)

Definition float64 := PrimFloat.float.
Definition matrix_f64 := list (list float64).

(** The conversion of a Python [int] to [float] (exact below [2^53]). *)
Definition float_of_int (n : nat) : float64 :=
  PrimFloat.of_uint63 (Uint63.of_Z (Z.of_nat n)).

(** The real number a finite binary64 value denotes: [m * 2^e]. *)
Definition spec_to_R (x : spec_float) : R :=
  match x with
  | S754_finite s m e =>
      (if s then -1 else 1)
      * (if (0 <=? e)%Z then IZR (Zpos m * 2 ^ e)
         else IZR (Zpos m) / IZR (2 ^ (- e)))
  | _ => 0
  end.

Definition float_to_R (x : float64) : R := spec_to_R (Prim2SF x).

Definition vadd_f64 (x y : list float64) : list float64 :=
  map2 PrimFloat.add x y.
Definition vscale_f64 (c : float64) (x : list float64) : list float64 :=
  map (PrimFloat.mul c) x.

Definition identity_f64 (n : nat) : matrix_f64 :=
  map (fun i => map (fun j => if (i =? j)%nat then 1%float else 0%float)
                    (seq 0 n))
      (seq 0 n).

Definition coo_diagonal_f64 (values : list float64) : matrix_f64 :=
  let n := length values in
  map (fun i => map (fun j => if (i =? j)%nat then nth i values 0%float
                              else 0%float)
                    (seq 0 n))
      (seq 0 n).

Definition row_times_f64 (c : nat) (row : list float64) (N : matrix_f64)
  : list float64 :=
  fold_right vadd_f64 (repeat 0%float c) (map2 vscale_f64 row N).

Definition mdot_f64 (c : nat) (M N : matrix_f64) : matrix_f64 :=
  map (fun row => row_times_f64 c row N) M.
Definition madd_f64 (M N : matrix_f64) : matrix_f64 := map2 vadd_f64 M N.
Definition mscale_f64 (c : float64) (M : matrix_f64) : matrix_f64 :=
  map (vscale_f64 c) M.

Definition adjacency_matrix_f64 (g : graph) : result matrix_f64 :=
  let n := number_of_nodes g in
  if (n =? 0)%nat then Raise NetworkXError
  else Ok (map (fun i => map (fun j => if mem j (neighbors g i)
                                       then 1%float else 0%float)
                             (seq 0 n))
               (seq 0 n)).

Definition _create_D_inverse_f64 (graph : graph) : result matrix_f64 :=
  values <- mapM (fun node =>
                    if (degree graph node =? 0)%nat
                    then Raise ZeroDivisionError
                    else Ok (1 / float_of_int (degree graph node))%float)
                 (nodes graph) ;;
  Ok (coo_diagonal_f64 values).

Definition _get_normalized_adjacency_f64 (graph : graph)
  : result matrix_f64 :=
  A <- adjacency_matrix_f64 graph ;;
  D_inverse <- _create_D_inverse_f64 graph ;;
  let n := number_of_nodes graph in
  let A_hat := madd_f64 (identity_f64 n) (mdot_f64 n D_inverse A) in
  Ok (mscale_f64 0.5%float A_hat).

(** The star on eight nodes: node 0 has degree 7, the others degree 1. *)
Definition star8 : graph :=
  [[1; 2; 3; 4; 5; 6; 7]; [0]; [0]; [0]; [0]; [0]; [0]; [0]]%nat.

(** Row 0 of the binary64 operator of the star. *)
Definition star8_row0_f64 : list float64 :=
  match _get_normalized_adjacency_f64 star8 with
  | Ok A_hat => nth 0 A_hat []
  | Raise _ => []
  end.

(** * Properties *)

(** Evaluation of the embedding on literal inputs: everything is computed
    but the arithmetic of the reals. *)
Ltac eval_py :=
  cbv -[Rplus Rminus Rmult Rinv Rdiv Ropp IZR Rabs ln pow Q2R].

(** ** Loops, ranges and comprehensions *)

Lemma range_length lo hi : length (range lo hi) = Z.to_nat (hi - lo).
Proof. unfold range. now rewrite length_map, length_seq. Qed.

Lemma in_range lo hi k : In k (range lo hi) <-> (lo <= k < hi)%Z.
Proof.
  unfold range. rewrite in_map_iff. split.
  - intros (i & <- & Hi). apply in_seq in Hi. lia.
  - intros Hk. exists (Z.to_nat (k - lo)). split; [lia|].
    apply in_seq. lia.
Qed.

Lemma range_nodup lo hi : NoDup (range lo hi).
Proof.
  unfold range. apply Finite.Injective_map_NoDup; [|apply seq_NoDup].
  intros a b. lia.
Qed.

Lemma range_empty lo hi : (hi <= lo)%Z -> range lo hi = [].
Proof.
  intros H. unfold range. replace (Z.to_nat (hi - lo)) with O by lia.
  reflexivity.
Qed.

Lemma range_cons lo hi : (lo < hi)%Z -> range lo hi = lo :: range (lo + 1) hi.
Proof.
  intros H. unfold range.
  replace (Z.to_nat (hi - lo)) with (S (Z.to_nat (hi - (lo + 1)))) by lia.
  cbn [seq map]. f_equal; [lia|].
  rewrite <- seq_shift, map_map. apply map_ext. intros. lia.
Qed.


Lemma for_each_append {A B} (f : A -> list B) (body : A -> list B -> list B) l :
  (forall a s, In a l -> body a s = s ++ f a) ->
  forall s, for_each l body s = s ++ flat_map f l.
Proof.
  unfold for_each. induction l as [|a l IH]; intros Hb s; cbn.
  - now rewrite app_nil_r.
  - rewrite Hb by now left. rewrite IH by (intros; apply Hb; now right).
    now rewrite app_assoc.
Qed.

Lemma forM_append {A B} (f : A -> list B)
      (body : A -> list B -> result (list B)) l :
  (forall a s, In a l -> body a s = Ok (s ++ f a)) ->
  forall s, forM l body s = Ok (s ++ flat_map f l).
Proof.
  induction l as [|a l IH]; intros Hb s; cbn.
  - now rewrite app_nil_r.
  - rewrite Hb by now left. cbn.
    rewrite IH by (intros; apply Hb; now right).
    now rewrite app_assoc.
Qed.

Lemma forM_ext {A S} (body body' : A -> S -> result S) l :
  (forall a s, In a l -> body a s = body' a s) ->
  forall s, forM l body s = forM l body' s.
Proof.
  induction l as [|a l IH]; intros Hb s; cbn; [reflexivity|].
  rewrite Hb by now left. destruct (body' a s); cbn; [|reflexivity].
  apply IH. intros; apply Hb; now right.
Qed.

Lemma mapM_ok {A B} (f : A -> result B) (g : A -> B) l :
  (forall a, In a l -> f a = Ok (g a)) -> mapM f l = Ok (map g l).
Proof.
  induction l as [|a l IH]; intros Hf; cbn; [reflexivity|].
  rewrite Hf by now left. cbn.
  rewrite IH by (intros; apply Hf; now right). reflexivity.
Qed.

Lemma mapM_Forall2 {A B} (f : A -> result B) l bs :
  mapM f l = Ok bs -> Forall2 (fun a b => f a = Ok b) l bs.
Proof.
  revert bs. induction l as [|a l IH]; cbn; intros bs H.
  - injection H as <-. constructor.
  - destruct (f a) as [b|e] eqn:Ea; cbn in H; [|discriminate].
    destruct (mapM f l) as [bs'|e] eqn:El; cbn in H; [|discriminate].
    injection H as <-. constructor; auto.
Qed.

Lemma Forall2_mapM {A B} (f : A -> result B) l bs :
  Forall2 (fun a b => f a = Ok b) l bs -> mapM f l = Ok bs.
Proof.
  induction 1 as [|a b l bs Hab _ IH]; cbn; [reflexivity|].
  now rewrite Hab, IH.
Qed.

Lemma mapM_ok_inv {A B} (f : A -> result B) l bs a :
  mapM f l = Ok bs -> In a l -> exists b, f a = Ok b.
Proof.
  revert bs. induction l as [|x l IH]; cbn; intros bs H Hin; [easy|].
  destruct (f x) as [b|e] eqn:Ex; cbn in H; [|discriminate].
  destruct (mapM f l) as [bs'|e] eqn:El; cbn in H; [|discriminate].
  destruct Hin as [<-|Hin]; [eauto|]. now apply (IH bs').
Qed.

Lemma mapM_raise {A B} (f : A -> result B) l a :
  In a l -> (exists e, f a = Raise e) -> exists e, mapM f l = Raise e.
Proof.
  induction l as [|b l IH]; intros Hin Hr; [easy|]. cbn.
  destruct (f b) as [y|e] eqn:Eb; cbn; [|now exists e].
  destruct Hin as [->|Hin].
  - destruct Hr as [e He]. congruence.
  - destruct (IH Hin Hr) as [e ->]. now exists e.
Qed.

Lemma map_nth_seq {A} (l : list A) d :
  map (fun i => nth i l d) (seq 0 (length l)) = l.
Proof.
  induction l as [|a l IH]; cbn; [reflexivity|]. f_equal.
  now rewrite <- seq_shift, map_map.
Qed.

Lemma flat_map_nth_seq {A B} (F : A -> list B) (l : list A) d :
  flat_map (fun i => F (nth i l d)) (seq 0 (length l)) = flat_map F l.
Proof.
  rewrite !flat_map_concat_map. f_equal.
  rewrite <- (map_map (fun i => nth i l d) F). now rewrite map_nth_seq.
Qed.

Lemma length_flat_map_const {A B} (F : A -> list B) (l : list A) k :
  (forall a, In a l -> length (F a) = k) ->
  length (flat_map F l) = (length l * k)%nat.
Proof.
  induction l as [|a l IH]; intros H; cbn; [reflexivity|].
  rewrite length_app, H by now left.
  rewrite IH by (intros; apply H; now right). reflexivity.
Qed.

Lemma flat_map_singleton {A B} (f : A -> B) l :
  flat_map (fun a => [f a]) l = map f l.
Proof. induction l as [|a l IH]; cbn; [reflexivity|]. now rewrite IH. Qed.

Lemma np_abs_idem x : np_abs (np_abs x) = np_abs x.
Proof.
  unfold np_abs. rewrite map_map. apply map_ext. intros. apply Rabs_Rabsolu.
Qed.

Lemma nth_range lo hi r d :
  (r < Z.to_nat (hi - lo))%nat -> nth r (range lo hi) d = (lo + Z.of_nat r)%Z.
Proof.
  intros Hr. unfold range.
  rewrite (nth_indep _ d (lo + Z.of_nat 0)%Z)
    by now rewrite length_map, length_seq.
  change (lo + Z.of_nat 0)%Z with ((fun k => (lo + Z.of_nat k)%Z) O).
  rewrite map_nth, seq_nth by assumption. reflexivity.
Qed.

Lemma nth_flat_map_const {A B} (F : A -> list B) (l : list A) k i r da d :
  (forall a, length (F a) = k) -> (i < length l)%nat -> (r < k)%nat ->
  nth (i * k + r) (flat_map F l) d = nth r (F (nth i l da)) d.
Proof.
  intros HF. revert i. induction l as [|a l IH]; intros i Hi Hr; cbn in *.
  - lia.
  - destruct i as [|i].
    + cbn. rewrite app_nth1 by (rewrite HF; lia). reflexivity.
    + rewrite app_nth2 by (rewrite HF; cbn; lia).
      rewrite HF. replace (S i * k + r - k)%nat with (i * k + r)%nat by (cbn; lia).
      apply IH; lia.
Qed.

(** ** Zero-order block *)

Lemma zero_order_features_closed self X :
  _get_zero_order_features self X = [zero_order_block (order self) X].
Proof.
  unfold _get_zero_order_features, zero_order_block. f_equal.
  rewrite (for_each_append
             (fun col => map (fun q => np_sum (np_power
                                (np_abs (nth col (map np_abs X) [])) q))
                             (range 1 (order self + 1)))).
  - cbn [app]. rewrite length_map.
    rewrite <- (length_map np_abs X).
    rewrite (flat_map_nth_seq
               (fun x => map (fun q => np_sum (np_power (np_abs x) q))
                             (range 1 (order self + 1)))).
    rewrite flat_map_concat_map, map_map, <- flat_map_concat_map.
    apply flat_map_ext. intros x. apply map_ext. intros q.
    rewrite np_abs_idem. unfold np_power, np_abs. now rewrite map_map.
  - intros col s _.
    rewrite (for_each_append (fun q => [np_sum (np_power
                                (np_abs (nth col (map np_abs X) [])) q)])).
    + now rewrite flat_map_singleton.
    + reflexivity.
Qed.

Lemma zero_order_block_length order X :
  length (zero_order_block order X) = (length X * Z.to_nat order)%nat.
Proof.
  unfold zero_order_block. apply length_flat_map_const.
  intros x _. rewrite length_map, range_length. lia.
Qed.

(** C5. The zero-order block takes no wavelet: for each of the 3 feature
    columns and each power [q = 1 .. order] (the range is governed by
    [order], [moments] is not read) it holds the sum over the nodes of
    [|x|^q], column after column, [3 * order] numbers in all. *)
Theorem zero_order_features_spec (self : GeoScattering) (X : columns) :
  (0 <= order self)%Z -> length X = 3%nat ->
  exists features,
    _get_zero_order_features self X = [features] /\
    Z.of_nat (length features) = (3 * order self)%Z /\
    forall col q, (col < 3)%nat -> (1 <= q <= order self)%Z ->
      nth (col * Z.to_nat (order self) + Z.to_nat (q - 1)) features 0
      = np_sum (map (fun v => Rabs v ^ Z.to_nat q) (nth col X [])).
Proof.
  intros Ho HX. exists (zero_order_block (order self) X).
  split; [apply zero_order_features_closed|]. split.
  - rewrite zero_order_block_length, HX. lia.
  - intros col q Hcol Hq. unfold zero_order_block.
    rewrite (nth_flat_map_const _ X (Z.to_nat (order self)) col _ []).
    + set (f := fun q0 => np_sum (map (fun v => Rabs v ^ Z.to_nat q0)
                                      (nth col X []))).
      rewrite (nth_indep _ 0 (f 0%Z))
        by (rewrite length_map, range_length; lia).
      rewrite (map_nth f), nth_range by lia.
      unfold f.
      replace (1 + Z.of_nat (Z.to_nat (q - 1)))%Z with q by lia. reflexivity.
    + intros x. rewrite length_map, range_length. lia.
    + lia.
    + lia.
Qed.

(** The moments hyperparameter plays no part in the zero-order block. *)
Lemma zero_order_ignores_moments o m m' e e' X :
  _get_zero_order_features {| order := o; moments := m; _embedding := e |} X
  = _get_zero_order_features {| order := o; moments := m'; _embedding := e' |} X.
Proof. now rewrite !zero_order_features_closed. Qed.

Lemma zero_order_features_spec_witness :
  exists features,
    _get_zero_order_features (__init__ 2 4) [[1; -2]; [3; 0]; [0; 1]]
    = [features] /\
    Z.of_nat (length features) = (3 * 2)%Z /\
    forall col q, (col < 3)%nat -> (1 <= q <= 2)%Z ->
      nth (col * Z.to_nat 2 + Z.to_nat (q - 1)) features 0
      = np_sum (map (fun v => Rabs v ^ Z.to_nat q)
                    (nth col [[1; -2]; [3; 0]; [0; 1]] [])).
Proof.
  apply (zero_order_features_spec (__init__ 2 4) [[1; -2]; [3; 0]; [0; 1]]).
  - cbn. lia.
  - reflexivity.
Defined.

(** ** Products and indexing that do not raise *)

Lemma np_abs_length x : length (np_abs x) = length x.
Proof. apply length_map. Qed.

Lemma mv_length M x : length (mv M x) = length M.
Proof. apply length_map. Qed.

Lemma dot_ok n M x :
  has_shape n n M -> length x = n -> dot M x = Ok (mv M x).
Proof.
  intros [_ HM] Hx. unfold dot.
  replace (forallb _ M) with true; [reflexivity|].
  symmetry. apply forallb_forall. intros row Hrow.
  rewrite Forall_forall in HM. apply Nat.eqb_eq. rewrite (HM _ Hrow). auto.
Qed.

Lemma getitem_ok {A} (l : list A) i d :
  (0 <= i < Z.of_nat (length l))%Z -> getitem l i = Ok (nth (Z.to_nat i) l d).
Proof.
  intros Hi. unfold getitem.
  destruct (Z.ltb_spec i 0); [lia|]. destruct (Z.ltb_spec i 0); [lia|].
  rewrite (nth_error_nth' l d) by lia. reflexivity.
Qed.

Lemma getitem_firstn {A} (l l' : list A) n i :
  firstn n l' = firstn n l -> (0 <= i)%Z -> (Z.to_nat i < n)%nat ->
  getitem l' i = getitem l i.
Proof.
  intros Hf Hi Hn. unfold getitem.
  destruct (Z.ltb_spec i 0); [lia|]. destruct (Z.ltb_spec i 0); [lia|].
  assert (E : nth_error l' (Z.to_nat i) = nth_error l (Z.to_nat i)).
  { pose proof (nth_error_firstn n l (Z.to_nat i)) as H1.
    pose proof (nth_error_firstn n l' (Z.to_nat i)) as H2.
    apply Nat.ltb_lt in Hn. rewrite Hn in H1, H2. congruence. }
  now rewrite E.
Qed.

Lemma moments_loop y m s :
  for_each (range 1 m)
           (fun q features => features ++ [np_sum (np_power (np_abs y) q)]) s
  = s ++ map (fun q => np_sum (map (fun v => Rabs v ^ Z.to_nat q) y))
             (range 1 m).
Proof.
  rewrite (for_each_append
             (fun q => [np_sum (map (fun v => Rabs v ^ Z.to_nat q) y)])).
  - now rewrite flat_map_singleton.
  - intros q s' _. unfold np_power, np_abs. now rewrite map_map.
Qed.

(** ** The pairs of the second-order loop nest *)

Lemma in_pairs order i j :
  In (i, j) (pairs order) <-> (0 <= i < j /\ j <= order - 1)%Z.
Proof.
  unfold pairs. rewrite in_flat_map. split.
  - intros (i' & Hi' & Hin). apply in_map_iff in Hin.
    destruct Hin as (j' & Heq & Hj'). injection Heq as <- <-.
    apply in_range in Hi', Hj'. lia.
  - intros Hij. exists i. split; [apply in_range; lia|].
    apply in_map. apply in_range. lia.
Qed.

Lemma pairs_nodup order : NoDup (pairs order).
Proof.
  unfold pairs. generalize (range_nodup 0 (order - 1)).
  induction (range 0 (order - 1)) as [|i l IH]; intros Hnd; cbn.
  - constructor.
  - inversion Hnd as [|? ? Hi Hl]; subst. apply NoDup_app.
    + apply Finite.Injective_map_NoDup; [|apply range_nodup].
      intros a b. congruence.
    + now apply IH.
    + intros [i' j'] Hin1 Hin2.
      apply in_map_iff in Hin1. destruct Hin1 as (? & Heq & _).
      injection Heq as <- _.
      apply in_flat_map in Hin2. destruct Hin2 as (i'' & Hi'' & Hin2).
      apply in_map_iff in Hin2. destruct Hin2 as (? & Heq & _).
      injection Heq as -> _. contradiction.
Qed.

Lemma triangle_sum hi m : forall lo,
  Z.of_nat m = (hi - 1 - lo)%Z ->
  (2 * list_sum (map (fun i => length (map (pair i) (range (i + 1) hi)))
                     (range lo (hi - 1))))%nat
  = (m * (m + 1))%nat.
Proof.
  induction m as [|m IH]; intros lo Hm.
  - rewrite range_empty by lia. reflexivity.
  - rewrite range_cons by lia. cbn [map list_sum fold_right].
    rewrite length_map, range_length.
    specialize (IH (lo + 1)%Z ltac:(lia)).
    unfold list_sum in IH. nia.
Qed.

Lemma pairs_length order :
  (0 <= order)%Z ->
  Z.of_nat (length (pairs order)) = (order * (order - 1) / 2)%Z.
Proof.
  intros Ho. unfold pairs. rewrite length_flat_map.
  destruct (Z.eq_dec order 0) as [->|Hne]; [reflexivity|].
  pose proof (triangle_sum order (Z.to_nat (order - 1)) 0 ltac:(lia)) as H.
  set (L := list_sum _) in *.
  assert (E : (order * (order - 1) = Z.of_nat L * 2)%Z) by nia.
  rewrite E. now rewrite Z.div_mul by lia.
Qed.

Lemma flat_map_pairs {B} (G : Z * Z -> list B) order :
  flat_map G (pairs order)
  = flat_map (fun i => flat_map (fun j => G (i, j)) (range (i + 1) order))
             (range 0 (order - 1)).
Proof.
  unfold pairs. induction (range 0 (order - 1)) as [|i l IH]; cbn.
  - reflexivity.
  - rewrite flat_map_app, IH. f_equal.
    now rewrite flat_map_concat_map, map_map, <- flat_map_concat_map.
Qed.

(** The loop over the columns of [np.abs(X)]. *)
Lemma columns_loop {B} (F : vector -> list B)
      (body : nat -> list B -> result (list B)) (X : columns) :
  (forall col s, (col < length X)%nat ->
                 body col s
                 = Ok (s ++ F (np_abs (nth col (map np_abs X) [])))) ->
  forM (seq 0 (length (map np_abs X))) body []
  = Ok (flat_map (fun x => F (np_abs x)) X).
Proof.
  intros Hb.
  rewrite (forM_append (fun col => F (np_abs (nth col (map np_abs X) [])))).
  - cbn [app]. f_equal.
    rewrite (flat_map_nth_seq (fun x => F (np_abs x)) (map np_abs X) []).
    rewrite flat_map_concat_map, map_map, <- flat_map_concat_map.
    apply flat_map_ext. intros x. now rewrite np_abs_idem.
  - intros col s Hin. apply Hb. apply in_seq in Hin.
    rewrite length_map in Hin. lia.
Qed.

Lemma column_length n (X : columns) col :
  Forall (fun x => length x = n) X -> (col < length X)%nat ->
  length (np_abs (nth col (map np_abs X) [])) = n.
Proof.
  intros HX Hcol. rewrite np_abs_length.
  change [] with (np_abs []). rewrite map_nth, np_abs_length.
  rewrite Forall_forall in HX. apply HX. now apply nth_In.
Qed.

(** ** First-order block *)

Lemma first_order_features_closed self Psi X n :
  Forall (has_shape n n) Psi -> Forall (fun x => length x = n) X ->
  _get_first_order_features self Psi X
  = Ok [first_order_block (moments self) Psi X].
Proof.
  intros HPsi HX. unfold _get_first_order_features, first_order_block.
  rewrite (columns_loop
             (fun x => flat_map
                         (fun psi => map (fun q => np_sum
                                            (map (fun v => Rabs v ^ Z.to_nat q)
                                                 (mv psi x)))
                                         (range 1 (moments self)))
                         Psi)).
  - reflexivity.
  - intros col s Hcol. apply forM_append. intros psi s' Hpsi.
    rewrite Forall_forall in HPsi.
    rewrite (dot_ok n) by (auto using column_length).
    cbn [bind]. now rewrite moments_loop.
Qed.

Lemma first_order_block_length moments Psi X :
  length (first_order_block moments Psi X)
  = (length X * (length Psi * Z.to_nat (moments - 1)))%nat.
Proof.
  unfold first_order_block. apply length_flat_map_const. intros x _.
  apply length_flat_map_const. intros psi _.
  rewrite length_map, range_length. lia.
Qed.

(** ** Second-order block *)

Lemma second_order_features_closed self Psi X n :
  (order self <= Z.of_nat (length Psi))%Z ->
  Forall (has_shape n n) Psi -> Forall (fun x => length x = n) X ->
  _get_second_order_features self Psi X
  = Ok [second_order_block (order self) (moments self) Psi X].
Proof.
  intros Hlen HPsi HX. unfold _get_second_order_features, second_order_block.
  rewrite (columns_loop
             (fun x => flat_map
                         (fun ij => map (fun q => np_sum
                                           (map (fun v => Rabs v ^ Z.to_nat q)
                                                (cascade Psi (fst ij) (snd ij) x)))
                                        (range 1 (moments self)))
                         (pairs (order self)))).
  - reflexivity.
  - intros col s Hcol. rewrite flat_map_pairs.
    apply forM_append. intros i s' Hi. apply forM_append. intros j s'' Hj.
    apply in_range in Hi, Hj. cbn [fst snd].
    rewrite (getitem_ok Psi i []), (getitem_ok Psi j []) by lia. cbn [bind].
    assert (Hnth : forall k, (0 <= k < order self)%Z ->
                             has_shape n n (nth (Z.to_nat k) Psi [])).
    { intros k Hk. rewrite Forall_forall in HPsi. apply HPsi.
      apply nth_In. lia. }
    rewrite (dot_ok n) by (auto using column_length with zarith).
    cbn [bind].
    rewrite (dot_ok n).
    + cbn [bind]. now rewrite moments_loop.
    + apply Hnth. lia.
    + rewrite np_abs_length, mv_length. apply (Hnth i). lia.
Qed.

Lemma second_order_block_length order moments Psi X :
  length (second_order_block order moments Psi X)
  = (length X * (length (pairs order) * Z.to_nat (moments - 1)))%nat.
Proof.
  unfold second_order_block. apply length_flat_map_const. intros x _.
  apply length_flat_map_const. intros ij _.
  rewrite length_map, range_length. lia.
Qed.

Lemma second_order_ignores_last self Psi Psi' X :
  firstn (Z.to_nat (order self)) Psi' = firstn (Z.to_nat (order self)) Psi ->
  _get_second_order_features self Psi' X
  = _get_second_order_features self Psi X.
Proof.
  intros Hf. unfold _get_second_order_features. f_equal.
  apply forM_ext. intros col s _. apply forM_ext. intros i s' Hi.
  apply forM_ext. intros j s'' Hj. apply in_range in Hi, Hj.
  rewrite (getitem_firstn Psi Psi' _ i Hf), (getitem_firstn Psi Psi' _ j Hf)
    by lia.
  reflexivity.
Qed.

(** C2. On a wavelet bank [Psi] of [order + 1] matrices and the three
    feature columns, the second-order loop nest visits exactly the ordered
    pairs [(i, j)] with [0 <= i < j <= order - 1], each once; it returns,
    column after column and pair after pair, the sums [sum(|z|^q)],
    [q = 1 .. moments-1], of the cascade [z = |Psi_j . |Psi_i . x||];
    that makes [3 * (order*(order-1)/2) * (moments-1)] numbers; and the
    last wavelet [Psi_order] is not read: the result is the same for any
    bank with the same first [order] matrices. *)
Theorem second_order_features_spec (self : GeoScattering)
        (Psi : list matrix) (X : columns) (n : nat) :
  (0 <= order self)%Z -> (1 <= moments self)%Z ->
  length X = 3%nat -> Forall (fun x => length x = n) X ->
  length Psi = Z.to_nat (order self + 1) -> Forall (has_shape n n) Psi ->
  (forall i j, In (i, j) (pairs (order self))
               <-> (0 <= i < j /\ j <= order self - 1)%Z) /\
  NoDup (pairs (order self)) /\
  _get_second_order_features self Psi X
  = Ok [second_order_block (order self) (moments self) Psi X] /\
  Z.of_nat (length (second_order_block (order self) (moments self) Psi X))
  = (3 * (order self * (order self - 1) / 2) * (moments self - 1))%Z /\
  (forall Psi',
      firstn (Z.to_nat (order self)) Psi' = firstn (Z.to_nat (order self)) Psi ->
      _get_second_order_features self Psi' X
      = _get_second_order_features self Psi X).
Proof.
  intros Ho Hm HX HXn HPsi HPsin.
  split; [intros; apply in_pairs|]. split; [apply pairs_nodup|].
  split; [apply (second_order_features_closed self Psi X n); auto; lia|].
  split; [|intros; now apply second_order_ignores_last].
  rewrite second_order_block_length, HX.
  rewrite <- (pairs_length (order self) Ho).
  rewrite !Nat2Z.inj_mul, Z2Nat.id by lia. lia.
Qed.

Lemma second_order_features_spec_witness :
  _get_second_order_features (__init__ 2 2) [[[1]]; [[-2]]; [[5]]]
                             [[1]; [-1]; [0]]
  = Ok [second_order_block 2 2 [[[1]]; [[-2]]; [[5]]] [[1]; [-1]; [0]]]
  /\ Z.of_nat (length (second_order_block 2 2 [[[1]]; [[-2]]; [[5]]]
                                          [[1]; [-1]; [0]]))
     = (3 * (2 * (2 - 1) / 2) * (2 - 1))%Z.
Proof.
  pose proof (second_order_features_spec
                (__init__ 2 2) [[[1]]; [[-2]]; [[5]]] [[1]; [-1]; [0]] 1%nat)
    as H.
  cbn [order moments __init__] in H.
  assert (H1 : (0 <= 2)%Z) by lia.
  assert (H2 : (1 <= 2)%Z) by lia.
  assert (H3 : Forall (fun x : list R => length x = 1%nat) [[1]; [-1]; [0]])
    by (repeat constructor).
  assert (H4 : Forall (has_shape 1 1) [[[1]]; [[-2]]; [[5]]])
    by (repeat constructor).
  destruct (H H1 H2 eq_refl H3 eq_refl H4) as (_ & _ & Hv & Hl & _).
  split; assumption.
Defined.

(** ** The wavelet bank *)

Lemma map2_map_map {A B C D} (f : B -> C -> D) (g : A -> B) (h : A -> C) l :
  map2 f (map g l) (map h l) = map (fun a => f (g a) (h a)) l.
Proof. induction l as [|a l IH]; cbn; [reflexivity|]. now rewrite IH. Qed.

Lemma msub_pointwise (g h : R -> R) (A : matrix) :
  msub (map (map g) A) (map (map h) A) = map (map (fun a => g a - h a)) A.
Proof.
  unfold msub. rewrite map2_map_map. apply map_ext. intros row.
  apply map2_map_map.
Qed.


(** Every wavelet of the bank is entry by entry
    [a^(2^k) - a^(2^(k+1))] of the entry [a] of [A_hat]. *)
Lemma calculate_wavelets_entries self A_hat :
  _calculate_wavelets self A_hat
  = map (fun k => map (map (fun a => a ^ Z.to_nat (2 ^ k)
                                     - a ^ Z.to_nat (2 ^ (k + 1)))) A_hat)
        (range 0 (order self + 1)).
Proof.
  unfold _calculate_wavelets. apply map_ext. intros k. apply msub_pointwise.
Qed.

Lemma calculate_wavelets_length self A_hat :
  length (_calculate_wavelets self A_hat) = Z.to_nat (order self + 1).
Proof.
  unfold _calculate_wavelets. rewrite length_map, range_length. f_equal. lia.
Qed.

Lemma power_shape r c A k : has_shape r c A -> has_shape r c (power A k).
Proof.
  intros [Hr Hc]. split; unfold power.
  - now rewrite length_map.
  - apply Forall_map. eapply Forall_impl; [|exact Hc].
    intros row Hrow. cbn. now rewrite length_map.
Qed.

Lemma calculate_wavelets_shape self A_hat r c :
  has_shape r c A_hat ->
  Forall (has_shape r c) (_calculate_wavelets self A_hat).
Proof.
  intros [Hr Hc]. rewrite calculate_wavelets_entries. apply Forall_map.
  apply Forall_forall. intros k _. split.
  - now rewrite length_map.
  - apply Forall_map. eapply Forall_impl; [|exact Hc].
    intros row Hrow. cbn. now rewrite length_map.
Qed.



(** Telescoping does not depend on which power builds the bank: it holds
    for every family of matrices of one shape. *)











(** The normalized operator of the path on two nodes. *)
Lemma normalized_adjacency_K2 : _get_normalized_adjacency K2 = Ok A_hat_K2.
Proof. eval_py. unfold A_hat_K2. repeat f_equal; lra. Qed.


(** C1, on the two-node path with [order = 0].  The bank has the
    [order + 1 = 1] matrix of the contract, but that matrix is
    [A_hat - A_hat.power(2)] with the entry-wise square, [0.25]
    everywhere, whereas with the matrix square, [A_hat . A_hat = A_hat]
    here, the wavelet [A_hat^1 - A_hat^2] is the zero matrix. *)
Theorem calculate_wavelets_not_matrix_power :
  _get_normalized_adjacency K2 = Ok A_hat_K2 /\
  _calculate_wavelets (__init__ 0 4) A_hat_K2
  = [[[0.25; 0.25]; [0.25; 0.25]]] /\
  wavelets_by_matrix_power 0 A_hat_K2 = [[[0; 0]; [0; 0]]] /\
  _calculate_wavelets (__init__ 0 4) A_hat_K2
  <> wavelets_by_matrix_power 0 A_hat_K2.
Proof.
  assert (E1 : _calculate_wavelets (__init__ 0 4) A_hat_K2
               = [[[0.25; 0.25]; [0.25; 0.25]]])
    by (eval_py; repeat f_equal; lra).
  assert (E2 : wavelets_by_matrix_power 0 A_hat_K2 = [[[0; 0]; [0; 0]]])
    by (eval_py; repeat f_equal; lra).
  split; [apply normalized_adjacency_K2|]. split; [exact E1|].
  split; [exact E2|].
  rewrite E1, E2. intros H. injection H as H. lra.
Qed.

(** ** Sums, rows and columns *)

Lemma nth_map_seq {A} (f : nat -> A) n i d :
  (i < n)%nat -> nth i (map f (seq 0 n)) d = f i.
Proof.
  intros Hi. rewrite (nth_indep _ d (f O)) by now rewrite length_map, length_seq.
  now rewrite map_nth, seq_nth.
Qed.

Lemma np_sum_scale {A} c (f : A -> R) l :
  np_sum (map (fun a => c * f a) l) = c * np_sum (map f l).
Proof.
  unfold np_sum. induction l as [|a l IH]; cbn; [ring|]. rewrite IH. ring.
Qed.

Lemma np_sum_plus {A} (f h : A -> R) l :
  np_sum (map (fun a => f a + h a) l) = np_sum (map f l) + np_sum (map h l).
Proof.
  unfold np_sum. induction l as [|a l IH]; cbn; [ring|]. rewrite IH. ring.
Qed.

Lemma np_sum_zero {A} (f : A -> R) l :
  (forall a, In a l -> f a = 0) -> np_sum (map f l) = 0.
Proof.
  unfold np_sum. induction l as [|a l IH]; intros H; cbn; [reflexivity|].
  rewrite H by now left. rewrite IH by (intros; apply H; now right). ring.
Qed.

(** A row of the identity sums to 1. *)
Lemma np_sum_delta i s n :
  np_sum (map (fun j => if (i =? j)%nat then 1 else 0) (seq s n))
  = if ((s <=? i) && (i <? s + n))%nat then 1 else 0.
Proof.
  unfold np_sum. revert s.
  induction n as [|n IH]; intros s; cbn [seq map fold_right].
  - destruct (Nat.leb_spec s i), (Nat.ltb_spec i (s + 0));
      cbn; try reflexivity; exfalso; lia.
  - rewrite IH.
    destruct (Nat.eqb_spec i s), (Nat.leb_spec (S s) i),
             (Nat.ltb_spec i (S s + n)), (Nat.leb_spec s i),
             (Nat.ltb_spec i (s + S n)); cbn; try ring; exfalso; lia.
Qed.

Lemma mem_In v l : mem v l = true <-> In v l.
Proof.
  unfold mem. rewrite existsb_exists. split.
  - intros (x & Hx & E). apply Nat.eqb_eq in E. now subst.
  - intros H. exists v. split; [assumption|apply Nat.eqb_refl].
Qed.

Lemma mem_not_In v l : mem v l = false <-> ~ In v l.
Proof.
  rewrite <- mem_In. destruct (mem v l); split; congruence.
Qed.

Lemma nodupb_NoDup l : nodupb l = true -> NoDup l.
Proof.
  induction l as [|a l IH]; cbn; intros H; constructor;
    apply andb_prop in H; destruct H as [H1 H2].
  - apply mem_not_In. now apply negb_true_iff.
  - auto.
Qed.

(** A row of the adjacency matrix sums to the number of neighbours. *)
Lemma np_sum_indicator (N : list nat) n :
  NoDup N -> (forall w, In w N -> (w < n)%nat) ->
  np_sum (map (fun j => if mem j N then 1 else 0) (seq 0 n)) = INR (length N).
Proof.
  induction N as [|a N IH]; intros Hnd Hlt.
  - cbn [length INR]. apply np_sum_zero. reflexivity.
  - inversion Hnd as [|? ? Ha HN]; subst.
    rewrite (map_ext_in _ (fun j => (if (a =? j)%nat then 1 else 0)
                                    + (if mem j N then 1 else 0))).
    + rewrite np_sum_plus, np_sum_delta, IH; auto using in_cons.
      replace ((0 <=? a) && (a <? 0 + n))%nat with true.
      * change (length (a :: N)) with (S (length N)). rewrite S_INR. ring.
      * symmetry. apply andb_true_intro. split; [apply Nat.leb_le; lia|].
        apply Nat.ltb_lt. cbn. apply Hlt. now left.
    + intros j _. unfold mem at 1. cbn [existsb]. fold (mem j N).
      rewrite (Nat.eqb_sym j a).
      destruct (Nat.eqb_spec a j) as [->|Hne]; cbn.
      * apply mem_not_In in Ha. rewrite Ha. ring.
      * destruct (mem j N); ring.
Qed.

(** ** The normalized operator *)

Lemma vadd_zero_l x c : length x = c -> vadd (repeat 0 c) x = x.
Proof.
  intros <-. unfold vadd. induction x as [|a x IH]; cbn; [reflexivity|].
  rewrite IH. f_equal. ring.
Qed.

Lemma vadd_zero_r x c : length x = c -> vadd x (repeat 0 c) = x.
Proof.
  intros <-. unfold vadd. induction x as [|a x IH]; cbn; [reflexivity|].
  rewrite IH. f_equal. ring.
Qed.

Lemma vscale_zero x : vscale 0 x = repeat 0 (length x).
Proof.
  unfold vscale. induction x as [|a x IH]; cbn; [reflexivity|].
  rewrite IH. f_equal. ring.
Qed.

Lemma vscale_length c x : length (vscale c x) = length x.
Proof. apply length_map. Qed.

(** A row of a diagonal matrix picks one row of the right factor. *)
Lemma row_times_diag (rows : matrix) c i v :
  Forall (fun r => length r = c) rows ->
  forall s,
    fold_right vadd (repeat 0 c)
      (map2 vscale (map (fun j => if (i =? j)%nat then v else 0)
                        (seq s (length rows))) rows)
    = if ((s <=? i) && (i <? s + length rows))%nat
      then vscale v (nth (i - s) rows [])
      else repeat 0 c.
Proof.
  induction 1 as [|r rows Hr Hrows IH]; intros s.
  - cbn [length seq map map2 fold_right].
    destruct (Nat.leb_spec s i), (Nat.ltb_spec i (s + 0));
      cbn; try reflexivity; exfalso; lia.
  - cbn [length seq map map2 fold_right]. rewrite IH.
    destruct (Nat.eqb_spec i s) as [->|Hne].
    + replace (s - s)%nat with O by lia. cbn [nth].
      destruct (Nat.leb_spec (S s) s), (Nat.leb_spec s s),
               (Nat.ltb_spec s (s + S (length rows)));
        cbn [andb]; try (exfalso; lia).
      apply vadd_zero_r. now rewrite vscale_length.
    + rewrite vscale_zero, Hr.
      destruct (Nat.leb_spec (S s) i), (Nat.ltb_spec i (S s + length rows)),
               (Nat.leb_spec s i), (Nat.ltb_spec i (s + S (length rows)));
        cbn [andb]; try (exfalso; lia);
        try (now apply vadd_zero_l, repeat_length).
      replace (i - s)%nat with (S (i - S s)) by lia. cbn [nth].
      apply vadd_zero_l. rewrite vscale_length.
      rewrite Forall_forall in Hrows. apply Hrows. apply nth_In. lia.
Qed.

Lemma mdot_diagonal (values : vector) (A : matrix) c :
  length A = length values -> Forall (fun r => length r = c) A ->
  mdot c (coo_diagonal values) A
  = map (fun i => vscale (nth i values 0) (nth i A []))
        (seq 0 (length values)).
Proof.
  intros HA Hc. unfold mdot, coo_diagonal. rewrite map_map.
  apply map_ext_in. intros i Hi. apply in_seq in Hi. unfold row_times.
  rewrite <- HA. rewrite (row_times_diag A c i _ Hc 0).
  destruct (Nat.leb_spec 0 i), (Nat.ltb_spec i (0 + length A));
    cbn [andb]; try (exfalso; lia).
  now rewrite Nat.sub_0_r.
Qed.

Lemma create_D_inverse_ok g :
  (forall v, (v < number_of_nodes g)%nat -> degree g v <> O) ->
  _create_D_inverse g
  = Ok (coo_diagonal (map (fun v => 1 / INR (degree g v)) (nodes g))).
Proof.
  intros Hd. unfold _create_D_inverse.
  rewrite (mapM_ok _ (fun v => 1 / INR (degree g v))); [reflexivity|].
  intros v Hv. apply in_seq in Hv.
  destruct (Nat.eqb_spec (degree g v) 0) as [E|_]; [|reflexivity].
  exfalso. apply (Hd v); [lia|assumption].
Qed.

Lemma get_normalized_adjacency_closed g :
  (0 < number_of_nodes g)%nat ->
  (forall v, (v < number_of_nodes g)%nat -> degree g v <> O) ->
  _get_normalized_adjacency g = Ok (normalized_operator g).
Proof.
  intros Hn Hd. unfold _get_normalized_adjacency, adjacency_matrix.
  destruct (Nat.eqb_spec (number_of_nodes g) 0) as [E|_]; [lia|].
  cbn [bind]. rewrite create_D_inverse_ok by assumption. cbn [bind].
  f_equal. unfold normalized_operator, nodes.
  set (n := number_of_nodes g).
  rewrite (mdot_diagonal _ _ n).
  - rewrite length_map, length_seq. unfold madd, identity, mscale.
    rewrite map2_map_map, map_map. apply map_ext_in. intros i Hi.
    apply in_seq in Hi.
    rewrite !nth_map_seq by lia. unfold vscale, vadd.
    rewrite map_map, map2_map_map, map_map. reflexivity.
  - now rewrite !length_map, !length_seq.
  - apply Forall_map, Forall_forall. intros i _.
    now rewrite length_map, length_seq.
Qed.

Lemma normalized_operator_shape g :
  has_shape (number_of_nodes g) (number_of_nodes g) (normalized_operator g).
Proof.
  unfold normalized_operator. split.
  - now rewrite length_map, length_seq.
  - apply Forall_map, Forall_forall. intros i _.
    now rewrite length_map, length_seq.
Qed.

(** ** Well-formed graphs *)

Lemma undirected_nodup g v :
  undirected g = true -> (v < number_of_nodes g)%nat -> NoDup (neighbors g v).
Proof.
  unfold undirected. rewrite forallb_forall. intros H Hv.
  specialize (H v ltac:(apply in_seq; lia)).
  apply andb_prop in H. now apply nodupb_NoDup.
Qed.

Lemma undirected_edge g v w :
  undirected g = true -> (v < number_of_nodes g)%nat ->
  In w (neighbors g v) ->
  (w < number_of_nodes g)%nat /\ In v (neighbors g w).
Proof.
  unfold undirected. rewrite forallb_forall. intros H Hv Hw.
  specialize (H v ltac:(apply in_seq; lia)).
  apply andb_prop in H. destruct H as [_ H].
  rewrite forallb_forall in H. specialize (H w Hw).
  apply andb_prop in H. destruct H as [H1 H2].
  split; [now apply Nat.ltb_lt|now apply mem_In].
Qed.

Lemma simple_undirected g : simple g = true -> undirected g = true.
Proof. unfold simple. intros H. now apply andb_prop in H. Qed.

Lemma simple_no_loop g v :
  simple g = true -> (v < number_of_nodes g)%nat -> mem v (neighbors g v) = false.
Proof.
  unfold simple. intros H Hv. apply andb_prop in H. destruct H as [_ H].
  rewrite forallb_forall in H.
  specialize (H v ltac:(apply in_seq; lia)). now apply negb_true_iff.
Qed.

Lemma simple_degree g v :
  simple g = true -> (v < number_of_nodes g)%nat ->
  degree g v = length (neighbors g v).
Proof.
  intros Hs Hv. unfold degree. rewrite simple_no_loop by assumption. lia.
Qed.

(** C6, as stated, fails in [float64].  On the star with eight nodes
    every node has degree at least 1; the quotient [1.0 / 7] is rounded, so
    that row 0 of the operator holds [0.5] and seven times
    [0.5 * (1.0 / 7)], numbers whose sum is [1 - 2^-55], not 1; added as
    floats they give a float below [1.0], from the left as from the
    right. *)
Lemma row_sum_is_not_one_in_binary64 :
  simple star8 = true /\
  forallb (fun v => (1 <=? degree star8 v)%nat) (nodes star8) = true /\
  (exists A_hat, _get_normalized_adjacency_f64 star8 = Ok A_hat /\
                 nth 0 A_hat [] = star8_row0_f64) /\
  star8_row0_f64 = 0.5%float :: repeat (0.5 * (1 / 7))%float 7 /\
  np_sum (map float_to_R star8_row0_f64) = 1 - / 2 ^ 55 /\
  np_sum (map float_to_R star8_row0_f64) <> 1 /\
  PrimFloat.eqb (fold_left PrimFloat.add star8_row0_f64 0%float) 1%float
  = false /\
  PrimFloat.eqb (fold_right PrimFloat.add 0%float star8_row0_f64) 1%float
  = false.
Proof.
  assert (E : map Prim2SF star8_row0_f64
              = S754_finite false 4503599627370496 (-53)
                :: repeat (S754_finite false 5146971002709138 (-56)) 7)
    by (vm_compute; reflexivity).
  assert (Hsum : np_sum (map float_to_R star8_row0_f64) = 1 - / 2 ^ 55).
  { change (map float_to_R star8_row0_f64)
      with (map (fun x => spec_to_R (Prim2SF x)) star8_row0_f64).
    rewrite <- (map_map Prim2SF spec_to_R), E. eval_py. lra. }
  split; [reflexivity|]. split; [reflexivity|].
  split; [eexists; split; vm_compute; reflexivity|].
  split; [vm_compute; reflexivity|].
  split; [exact Hsum|]. split.
  - rewrite Hsum. assert (0 < / 2 ^ 55) by (apply Rinv_0_lt_compat; lra). lra.
  - split; vm_compute; reflexivity.
Qed.

(** C6, amended.  On a simple graph with at least one node in which every
    node has degree at least 1, the operator is built, its entry [(i, j)]
    is [0.5 * (I_ij + A_ij / degree(i))], that is [0.5 * (I + D^-1 A)], and
    each of its rows sums to 1 in exact arithmetic, that is when the
    quotients [1.0 / degree] are not rounded. *)
Theorem normalized_adjacency_spec (g : graph) :
  simple g = true -> (0 < number_of_nodes g)%nat ->
  (forall v, (v < number_of_nodes g)%nat -> (1 <= degree g v)%nat) ->
  exists A A_hat,
    adjacency_matrix g = Ok A /\
    _get_normalized_adjacency g = Ok A_hat /\
    has_shape (number_of_nodes g) (number_of_nodes g) A_hat /\
    (forall i j, (i < number_of_nodes g)%nat -> (j < number_of_nodes g)%nat ->
       nth j (nth i A_hat []) 0
       = 0.5 * ((if (i =? j)%nat then 1 else 0)
                + / INR (degree g i) * nth j (nth i A []) 0)) /\
    (forall i, (i < number_of_nodes g)%nat -> np_sum (nth i A_hat []) = 1).
Proof.
  intros Hs Hn Hd.
  assert (Hd' : forall v, (v < number_of_nodes g)%nat -> degree g v <> O)
    by (intros v Hv; specialize (Hd v Hv); lia).
  eexists. exists (normalized_operator g).
  split; [unfold adjacency_matrix;
          destruct (Nat.eqb_spec (number_of_nodes g) 0); [lia|reflexivity]|].
  split; [now apply get_normalized_adjacency_closed|].
  split; [apply normalized_operator_shape|]. split.
  - intros i j Hi Hj. unfold normalized_operator.
    rewrite !nth_map_seq by assumption. unfold Rdiv. now rewrite Rmult_1_l.
  - intros i Hi. unfold normalized_operator. rewrite nth_map_seq by assumption.
    rewrite np_sum_scale, np_sum_plus, np_sum_scale, np_sum_delta.
    rewrite np_sum_indicator.
    + rewrite <- simple_degree by assumption.
      destruct (Nat.leb_spec 0 i), (Nat.ltb_spec i (0 + number_of_nodes g));
        cbn [andb]; try (exfalso; lia).
      assert (Hnz : INR (degree g i) <> 0) by (apply not_0_INR; auto).
      replace (1 / INR (degree g i) * INR (degree g i)) with 1
        by (field; assumption).
      lra.
    + apply undirected_nodup; auto using simple_undirected.
    + intros w Hw.
      now apply (undirected_edge g i w (simple_undirected g Hs) Hi).
Qed.

Lemma normalized_adjacency_spec_witness :
  exists A A_hat,
    adjacency_matrix star8 = Ok A /\
    _get_normalized_adjacency star8 = Ok A_hat /\
    has_shape 8 8 A_hat /\
    (forall i j, (i < 8)%nat -> (j < 8)%nat ->
       nth j (nth i A_hat []) 0
       = 0.5 * ((if (i =? j)%nat then 1 else 0)
                + / INR (degree star8 i) * nth j (nth i A []) 0)) /\
    (forall i, (i < 8)%nat -> np_sum (nth i A_hat []) = 1).
Proof.
  apply (normalized_adjacency_spec star8).
  - reflexivity.
  - cbn. lia.
  - intros v Hv. cbn in Hv.
    do 8 (destruct v as [|v]; [cbn; lia|]). lia.
Defined.

(** ** Reachability *)

Lemma reachable_trans g u v w :
  reachable g u v -> reachable g v w -> reachable g u w.
Proof.
  intros Huv Hvw. induction Hvw as [|x y _ IH Hy]; [assumption|].
  now apply (reach_step g u x y).
Qed.

Lemma reachable_lt g u v :
  undirected g = true -> (u < number_of_nodes g)%nat ->
  reachable g u v -> (v < number_of_nodes g)%nat.
Proof.
  intros Hu Hlt Hr. induction Hr as [|x y _ IH Hy]; [assumption|].
  now apply (undirected_edge g x y Hu IH).
Qed.

Lemma reachable_sym g u v :
  undirected g = true -> (u < number_of_nodes g)%nat ->
  reachable g u v -> reachable g v u.
Proof.
  intros Hu Hlt Hr. induction Hr as [|x y Hx IH Hy]; [constructor|].
  apply reachable_trans with x; [|assumption].
  apply (reach_step g y y x); [constructor|].
  apply (undirected_edge g x y Hu); [|assumption].
  now apply (reachable_lt g u x).
Qed.

(** ** Breadth-first search *)

Lemma scan_sound seen ws w :
  In w (scan seen ws) -> In w ws /\ ~ In w seen.
Proof.
  revert seen. induction ws as [|a ws IH]; intros seen; cbn; [easy|].
  destruct (mem a seen) eqn:E.
  - intros H. apply IH in H. tauto.
  - apply mem_not_In in E. intros [<-|H]; [tauto|].
    apply IH in H. cbn in H. tauto.
Qed.

Lemma scan_nodup seen ws : NoDup (scan seen ws).
Proof.
  revert seen. induction ws as [|a ws IH]; intros seen; cbn; [constructor|].
  destruct (mem a seen); [apply IH|]. constructor; [|apply IH].
  intros H. apply scan_sound in H. cbn in H. tauto.
Qed.

Lemma scan_complete seen ws w :
  In w ws -> In w seen \/ In w (scan seen ws).
Proof.
  revert seen. induction ws as [|a ws IH]; intros seen; cbn; [easy|].
  destruct (mem a seen) eqn:E.
  - intros [<-|H]; [left; now apply mem_In|now apply IH].
  - intros [<-|H]; [right; now left|].
    destruct (IH (a :: seen) H) as [[<-|H']|H']; cbn; tauto.
Qed.

Lemma keys_app dist ws level :
  keys (dist ++ map (fun w => (w, level)) ws) = keys dist ++ ws.
Proof.
  unfold keys. rewrite map_app, map_map. cbn. now rewrite map_id.
Qed.

Lemma keys_bound g src dist thislevel :
  bfs_inv g src dist thislevel -> (length dist <= number_of_nodes g)%nat.
Proof.
  intros I.
  assert (H : incl (keys dist) (seq 0 (number_of_nodes g))).
  { intros x Hx. apply in_seq. apply (inv_sound _ _ _ _ I) in Hx. lia. }
  apply NoDup_incl_length in H; [|apply (inv_nodup _ _ _ _ I)].
  unfold keys in H. now rewrite length_map, length_seq in H.
Qed.

(** One turn of the loop keeps the invariant. *)
Lemma bfs_step_inv g src dist thislevel level :
  undirected g = true -> bfs_inv g src dist thislevel ->
  let nextlevel := scan (keys dist) (flat_map (neighbors g) thislevel) in
  bfs_inv g src (dist ++ map (fun w => (w, level)) nextlevel) nextlevel.
Proof.
  intros Hu I nextlevel. split; rewrite ?keys_app.
  - apply NoDup_app; [apply (inv_nodup _ _ _ _ I)|apply scan_nodup|].
    intros x Hx Hx'. apply scan_sound in Hx'. tauto.
  - intros x Hx. apply in_app_or in Hx. destruct Hx as [Hx|Hx].
    + now apply (inv_sound _ _ _ _ I).
    + apply scan_sound in Hx. destruct Hx as [Hx _].
      apply in_flat_map in Hx. destruct Hx as (v & Hv & Hx).
      apply (inv_level _ _ _ _ I) in Hv.
      apply (inv_sound _ _ _ _ I) in Hv. destruct Hv as [Hv Hr].
      split; [now apply (undirected_edge g v x Hu Hv)|].
      now apply (reach_step g src v x).
  - intros x Hx. apply in_or_app. now right.
  - intros x w Hx Hnx Hw. apply in_or_app.
    apply in_app_or in Hx. destruct Hx as [Hx|Hx]; [|contradiction].
    destruct (in_dec Nat.eq_dec x thislevel) as [Hl|Hl].
    + apply scan_complete. apply in_flat_map. now exists x.
    + left. now apply (inv_closed _ _ _ _ I x w).
  - apply in_or_app. left. apply (inv_source _ _ _ _ I).
Qed.

(** The loop stops with every met node having all its neighbours met. *)
Lemma bfs_loop_inv g src :
  undirected g = true ->
  forall fuel dist thislevel level,
    bfs_inv g src dist thislevel ->
    thislevel = [] \/ (number_of_nodes g + 1 <= fuel + length dist)%nat ->
    bfs_inv g src (bfs_loop g fuel dist thislevel level) [].
Proof.
  intros Hu. induction fuel as [|fuel IH]; intros dist thislevel level I Hm.
  - cbn. destruct Hm as [->|Hm]; [assumption|].
    pose proof (keys_bound _ _ _ _ I). lia.
  - cbn. destruct thislevel as [|a l] eqn:E; [assumption|]. rewrite <- E in *.
    pose proof (bfs_step_inv g src dist thislevel (S level) Hu I) as I'.
    cbn zeta in I'. change (map fst dist) with (keys dist).
    apply IH; [assumption|].
    destruct (scan (keys dist) (flat_map (neighbors g) thislevel)) eqn:En;
      [now left|right].
    rewrite length_app, length_map. cbn [length].
    destruct Hm as [Hm|Hm]; [congruence|lia].
Qed.

Lemma shortest_path_length_inv g v :
  undirected g = true -> (v < number_of_nodes g)%nat ->
  bfs_inv g v (shortest_path_length g v) [].
Proof.
  intros Hu Hv. unfold shortest_path_length. apply bfs_loop_inv; [assumption| |].
  - split; cbn.
    + constructor; [easy|constructor].
    + intros x [<-|[]]. split; [assumption|constructor].
    + intros x [<-|[]]. now left.
    + intros x w [<-|[]] Hn. exfalso. apply Hn. now left.
    + now left.
  - right. cbn. lia.
Qed.

(** Soundness and completeness of the search. *)
Lemma shortest_path_length_reaches g v x :
  undirected g = true -> (v < number_of_nodes g)%nat ->
  (In x (keys (shortest_path_length g v)) <-> reachable g v x).
Proof.
  intros Hu Hv. pose proof (shortest_path_length_inv g v Hu Hv) as I. split.
  - intros Hx. now apply (inv_sound _ _ _ _ I).
  - intros Hr. induction Hr as [|y w _ IH Hw].
    + apply (inv_source _ _ _ _ I).
    + apply (inv_closed _ _ _ _ I y w); auto.
Qed.

(** ** Eccentricity and the node features *)

Lemma eccentricity_connected g v :
  undirected g = true -> connected g -> (v < number_of_nodes g)%nat ->
  exists e, eccentricity g v = Ok e.
Proof.
  intros Hu [_ Hc] Hv. unfold eccentricity.
  pose proof (shortest_path_length_inv g v Hu Hv) as I.
  pose proof (keys_bound _ _ _ _ I) as Hle.
  assert (Hge : (number_of_nodes g <= length (shortest_path_length g v))%nat).
  { assert (H : incl (seq 0 (number_of_nodes g))
                       (keys (shortest_path_length g v))).
    { intros x Hx. apply in_seq in Hx.
      apply shortest_path_length_reaches; auto. apply Hc; lia. }
    apply NoDup_incl_length in H; [|apply seq_NoDup].
    unfold keys in H. now rewrite length_map, length_seq in H. }
  destruct (Nat.eqb_spec (length (shortest_path_length g v))
                         (number_of_nodes g)); [eauto|lia].
Qed.

Lemma eccentricity_disconnected g v :
  undirected g = true -> disconnected g -> (v < number_of_nodes g)%nat ->
  eccentricity g v = Raise NetworkXError.
Proof.
  intros Hu (u & w & Hlu & Hlw & Hnr) Hv. unfold eccentricity.
  destruct (Nat.eqb_spec (length (shortest_path_length g v))
                         (number_of_nodes g)) as [E|_]; [|reflexivity].
  exfalso. apply Hnr.
  pose proof (shortest_path_length_inv g v Hu Hv) as I.
  assert (Hall : incl (seq 0 (number_of_nodes g))
                      (keys (shortest_path_length g v))).
  { apply NoDup_length_incl; [apply (inv_nodup _ _ _ _ I)| |].
    - unfold keys. rewrite length_map, length_seq. lia.
    - intros x Hx. apply in_seq. apply (inv_sound _ _ _ _ I) in Hx. lia. }
  assert (Hr : forall x, (x < number_of_nodes g)%nat -> reachable g v x).
  { intros x Hx. apply shortest_path_length_reaches; auto.
    apply Hall. apply in_seq. lia. }
  apply reachable_trans with v; [|now apply Hr].
  apply reachable_sym; auto.
Qed.

Lemma create_node_feature_matrix_shape g X :
  _create_node_feature_matrix g = Ok X ->
  length X = 3%nat /\ Forall (fun x => length x = number_of_nodes g) X.
Proof.
  unfold _create_node_feature_matrix.
  destruct (mapM _ (nodes g)) as [ecc|e] eqn:E; cbn; [|discriminate].
  intros H. injection H as <-. split; [reflexivity|].
  apply mapM_Forall2, Forall2_length in E.
  unfold nodes in *. rewrite length_seq in E.
  repeat constructor; rewrite ?length_map, ?length_seq; auto.
Qed.

Lemma create_node_feature_matrix_ok g :
  undirected g = true -> connected g ->
  exists X, _create_node_feature_matrix g = Ok X.
Proof.
  intros Hu Hc. unfold _create_node_feature_matrix.
  rewrite (mapM_ok _ (eccentricity_value g)); [cbn; eauto|].
  intros v Hv. apply in_seq in Hv. unfold eccentricity_value.
  destruct (eccentricity_connected g v Hu Hc) as [e ->]; [lia|reflexivity].
Qed.

Lemma create_node_feature_matrix_disconnected g :
  undirected g = true -> disconnected g ->
  _create_node_feature_matrix g = Raise NetworkXError.
Proof.
  intros Hu Hd. unfold _create_node_feature_matrix, nodes.
  assert (Hn : (0 < number_of_nodes g)%nat)
    by (destruct Hd as (u & _ & Hlt & _); lia).
  destruct (number_of_nodes g) as [|n] eqn:En; [lia|].
  cbn [seq mapM]. rewrite eccentricity_disconnected; auto. lia.
Qed.

(** ** The feature row of one graph *)

Lemma get_normalized_adjacency_inv g A_hat :
  _get_normalized_adjacency g = Ok A_hat ->
  (0 < number_of_nodes g)%nat /\
  (forall v, (v < number_of_nodes g)%nat -> degree g v <> O) /\
  A_hat = normalized_operator g.
Proof.
  intros H.
  assert (Hn : (0 < number_of_nodes g)%nat).
  { unfold _get_normalized_adjacency, adjacency_matrix in H.
    destruct (Nat.eqb_spec (number_of_nodes g) 0); [discriminate|lia]. }
  assert (Hd : forall v, (v < number_of_nodes g)%nat -> degree g v <> O).
  { unfold _get_normalized_adjacency, adjacency_matrix, _create_D_inverse in H.
    destruct (Nat.eqb_spec (number_of_nodes g) 0); [discriminate|].
    cbn [bind] in H.
    destruct (mapM _ (nodes g)) as [vals|e] eqn:E; [|discriminate].
    intros v Hv Hz.
    assert (Hin : In v (nodes g)) by (apply in_seq; lia).
    destruct (mapM_ok_inv _ _ _ v E Hin) as (b & Hb).
    rewrite Hz in Hb. discriminate. }
  rewrite get_normalized_adjacency_closed in H by assumption.
  injection H as <-. auto.
Qed.

Lemma calculate_geoscattering_closed self g X :
  (0 < number_of_nodes g)%nat ->
  (forall v, (v < number_of_nodes g)%nat -> degree g v <> O) ->
  _create_node_feature_matrix g = Ok X ->
  _calculate_geoscattering self g
  = Ok [feature_row self (normalized_operator g) X].
Proof.
  intros Hn Hd HX. unfold _calculate_geoscattering.
  rewrite get_normalized_adjacency_closed by assumption. cbn [bind].
  rewrite HX. cbn [bind].
  destruct (create_node_feature_matrix_shape g X HX) as [H3 Hcols].
  pose proof (calculate_wavelets_shape self _ _ _ (normalized_operator_shape g))
    as HPsi.
  rewrite zero_order_features_closed.
  rewrite (first_order_features_closed _ _ _ _ HPsi Hcols). cbn [bind].
  rewrite (second_order_features_closed _ _ _ (number_of_nodes g)); auto.
  rewrite calculate_wavelets_length. lia.
Qed.

Lemma feature_row_length self A_hat X :
  length X = 3%nat ->
  length (feature_row self A_hat X)
  = feature_length (order self) (moments self).
Proof.
  intros HX. unfold feature_row, feature_length.
  rewrite !length_app, zero_order_block_length, first_order_block_length,
    second_order_block_length, calculate_wavelets_length, HX.
  lia.
Qed.

(** Whenever the features of a graph are computed, they form one row whose
    length is fixed by the two hyperparameters. *)
Lemma calculate_geoscattering_row self g m :
  _calculate_geoscattering self g = Ok m ->
  exists f, m = [f] /\ length f = feature_length (order self) (moments self).
Proof.
  intros H.
  destruct (_get_normalized_adjacency g) as [A_hat|e] eqn:EA;
    [|unfold _calculate_geoscattering in H; rewrite EA in H; discriminate].
  destruct (_create_node_feature_matrix g) as [X|e] eqn:EX;
    [|unfold _calculate_geoscattering in H; rewrite EA, EX in H; discriminate].
  apply get_normalized_adjacency_inv in EA. destruct EA as (Hn & Hd & ->).
  rewrite (calculate_geoscattering_closed self g X Hn Hd EX) in H.
  injection H as <-. eexists. split; [reflexivity|].
  apply feature_row_length. now apply (create_node_feature_matrix_shape g).
Qed.

Lemma feature_length_formula O M :
  (0 <= O)%Z -> (1 <= M)%Z ->
  Z.of_nat (feature_length O M)
  = (3 * O + 3 * (O + 1) * (M - 1) + 3 * (O * (O - 1) / 2) * (M - 1))%Z.
Proof.
  intros HO HM. unfold feature_length.
  rewrite <- (pairs_length O HO).
  rewrite !Nat2Z.inj_add, !Nat2Z.inj_mul, !Z2Nat.id by lia. reflexivity.
Qed.

(** C4. For every graph the pipeline accepts (nodes [0 .. n-1], connected,
    every degree at least 1) and hyperparameters [order = O >= 0],
    [moments = M >= 1], the features of the graph are computed and form one
    row of exactly [3*O + 3*(O+1)*(M-1) + 3*(O*(O-1)/2)*(M-1)] numbers,
    whatever the number of nodes. *)
Theorem feature_vector_length (self : GeoScattering) (g : graph) :
  undirected g = true -> connected g ->
  (forall v, (v < number_of_nodes g)%nat -> (1 <= degree g v)%nat) ->
  (0 <= order self)%Z -> (1 <= moments self)%Z ->
  exists features,
    _calculate_geoscattering self g = Ok [features] /\
    Z.of_nat (length features)
    = (3 * order self + 3 * (order self + 1) * (moments self - 1)
       + 3 * (order self * (order self - 1) / 2) * (moments self - 1))%Z.
Proof.
  intros Hu Hc Hd HO HM.
  destruct (create_node_feature_matrix_ok g Hu Hc) as [X HX].
  assert (Hd' : forall v, (v < number_of_nodes g)%nat -> degree g v <> O)
    by (intros v Hv; specialize (Hd v Hv); lia).
  exists (feature_row self (normalized_operator g) X). split.
  - apply calculate_geoscattering_closed; auto. apply Hc.
  - rewrite feature_row_length
      by now apply (create_node_feature_matrix_shape g).
    now apply feature_length_formula.
Qed.

Lemma K2_connected : connected K2.
Proof.
  split; [cbn; lia|]. intros u v Hu Hv. cbn in Hu, Hv.
  assert (H01 : reachable K2 0 1)
    by (apply (reach_step K2 0 0 1); [constructor|now left]).
  assert (H10 : reachable K2 1 0)
    by (apply (reach_step K2 1 1 0); [constructor|now left]).
  destruct u as [|[|u]], v as [|[|v]]; try lia; auto; constructor.
Qed.

Lemma K2_degrees v : (v < number_of_nodes K2)%nat -> (1 <= degree K2 v)%nat.
Proof. cbn. intros Hv. destruct v as [|[|v]]; cbn; lia. Qed.

Lemma feature_vector_length_witness :
  exists features,
    _calculate_geoscattering (__init__ 4 4) K2 = Ok [features] /\
    Z.of_nat (length features)
    = (3 * 4 + 3 * (4 + 1) * (4 - 1) + 3 * (4 * (4 - 1) / 2) * (4 - 1))%Z.
Proof.
  apply (feature_vector_length (__init__ 4 4) K2).
  - reflexivity.
  - exact K2_connected.
  - exact K2_degrees.
  - cbn. lia.
  - cbn. lia.
Defined.

Lemma calculate_geoscattering_ok self g :
  undirected g = true -> connected g ->
  (forall v, (v < number_of_nodes g)%nat -> (1 <= degree g v)%nat) ->
  exists X, _create_node_feature_matrix g = Ok X /\
            _calculate_geoscattering self g
            = Ok [feature_row self (normalized_operator g) X].
Proof.
  intros Hu Hc Hd.
  destruct (create_node_feature_matrix_ok g Hu Hc) as [X HX].
  exists X. split; [assumption|].
  apply calculate_geoscattering_closed; auto; [apply Hc|].
  intros v Hv. specialize (Hd v Hv). lia.
Qed.

(** ** Comprehensions over collections *)

Lemma mapM_app {A B} (f : A -> result B) l1 l2 :
  mapM f (l1 ++ l2)
  = (bs1 <- mapM f l1 ;; bs2 <- mapM f l2 ;; Ok (bs1 ++ bs2)).
Proof.
  induction l1 as [|a l1 IH]; cbn.
  - destruct (mapM f l2); reflexivity.
  - destruct (f a); cbn; [|reflexivity]. rewrite IH.
    destruct (mapM f l1); cbn; [|reflexivity].
    destruct (mapM f l2); reflexivity.
Qed.

Lemma mapM_raise_at {A B} (f : A -> result B) before a after e :
  Forall (fun x => exists b, f x = Ok b) before -> f a = Raise e ->
  mapM f (before ++ a :: after) = Raise e.
Proof.
  intros Hb Ha. induction Hb as [|x l (b & Hx) _ IH]; cbn.
  - now rewrite Ha.
  - now rewrite Hx, IH.
Qed.

Lemma mapM_raise_only {A B} (f : A -> result B) l a e :
  (forall x, In x l -> (exists b, f x = Ok b) \/ f x = Raise e) ->
  In a l -> f a = Raise e -> mapM f l = Raise e.
Proof.
  induction l as [|x l IH]; intros Hall Hin Ha; [easy|]. cbn.
  destruct (Hall x (or_introl eq_refl)) as [(b & Hx)|Hx];
    rewrite Hx; cbn; [|reflexivity].
  destruct Hin as [->|Hin]; [congruence|].
  rewrite IH; auto. intros y Hy. apply Hall. now right.
Qed.

Lemma Forall2_nth_error {A B} (P : A -> B -> Prop) l l' i :
  Forall2 P l l' ->
  match nth_error l i, nth_error l' i with
  | Some a, Some b => P a b
  | None, None => True
  | _, _ => False
  end.
Proof.
  intros H. revert i. induction H as [|a b l l' Hab _ IH]; intros [|i]; cbn;
    auto.
  apply IH.
Qed.

Lemma mapM_reorder {A B} (f : A -> result B) l bs idx :
  mapM f l = Ok bs -> mapM f (reorder idx l) = Ok (reorder idx bs).
Proof.
  intros H. apply mapM_Forall2 in H. unfold reorder.
  induction idx as [|i idx IH]; cbn [flat_map]; [reflexivity|].
  rewrite mapM_app, IH.
  pose proof (Forall2_nth_error _ _ _ i H) as Hi.
  destruct (nth_error l i) as [a|], (nth_error bs i) as [b|]; try easy.
  cbn. now rewrite Hi.
Qed.

Lemma reorder_map {A B} (h : A -> B) idx l :
  reorder idx (map h l) = map h (reorder idx l).
Proof.
  unfold reorder. induction idx as [|i idx IH]; cbn; [reflexivity|].
  rewrite map_app, IH, nth_error_map. now destruct (nth_error l i).
Qed.

(** ** Fitting *)

Lemma fit_ok `{Estimator} self graphs :
  snd (fit self graphs) = Ok tt ->
  exists rows,
    _check_graphs graphs = Ok tt /\
    mapM (_calculate_geoscattering self) graphs = Ok rows /\
    fit self graphs = (set_embedding self rows, Ok tt).
Proof.
  unfold fit. destruct (_check_graphs graphs) as [[]|e]; [|discriminate].
  destruct (mapM _ graphs) as [rows|e]; [|discriminate].
  intros _. now exists rows.
Qed.

Lemma fit_raise `{Estimator} self graphs g :
  In g graphs -> (exists e, _calculate_geoscattering self g = Raise e) ->
  exists e, fit self graphs = (self, Raise e).
Proof.
  intros Hin Hg. unfold fit.
  destruct (_check_graphs graphs) as [u|e]; [|now exists e].
  destruct (mapM_raise _ graphs g Hin Hg) as [e ->]. now exists e.
Qed.

Lemma one_row_blocks self graphs rows :
  mapM (_calculate_geoscattering self) graphs = Ok rows ->
  rows = map (fun f => [f]) (map (hd []) rows) /\
  Forall2 (fun g f => _calculate_geoscattering self g = Ok [f] /\
                      length f = feature_length (order self) (moments self))
          graphs (map (hd []) rows).
Proof.
  intros H. apply mapM_Forall2 in H.
  induction H as [|g m gs ms Hg _ [IH1 IH2]]; cbn; [split; constructor|].
  destruct (calculate_geoscattering_row self g m Hg) as (f & -> & Hf).
  cbn [hd]. split; [now rewrite <- IH1|]. constructor; auto.
Qed.

Lemma fit_K2 self :
  exists f,
    length f = feature_length (order self) (moments self) /\
    @fit accept_all self [K2] = (set_embedding self [[f]], Ok tt).
Proof.
  destruct (calculate_geoscattering_ok self K2 eq_refl K2_connected K2_degrees)
    as (X & HX & Hf).
  exists (feature_row self (normalized_operator K2) X). split.
  - apply feature_row_length. now apply (create_node_feature_matrix_shape K2).
  - unfold fit. cbn [_check_graphs accept_all mapM]. rewrite Hf. reflexivity.
Qed.

(** C3, as stated, fails: after a successful [fit] on the single two-node
    path, [get_embedding] returns a three-dimensional array of shape
    [(1, 1, 9)], not a two-dimensional [1 x 9] matrix. *)
Lemma get_embedding_is_not_a_matrix :
  snd (@fit accept_all (__init__ 1 2) [K2]) = Ok tt /\
  (exists f, length f = 9%nat /\
             get_embedding (fst (@fit accept_all (__init__ 1 2) [K2]))
             = Ok (array3 [[f]]) /\ ndim (array3 [[f]]) = 3%nat) /\
  ~ (exists rows,
        get_embedding (fst (@fit accept_all (__init__ 1 2) [K2]))
        = Ok (array2 rows)).
Proof.
  destruct (fit_K2 (__init__ 1 2)) as (f & Hlen & ->).
  split; [reflexivity|]. split.
  - exists f. split; [exact Hlen|]. split; reflexivity.
  - intros [rows Hrows]. discriminate.
Qed.

(** C3, amended.  After [fit] succeeds on a collection of [G] graphs,
    [get_embedding] returns [np.array] of [G] blocks of one row each, a
    [G x 1 x F] array (the empty one-dimensional array when [G = 0]); block
    [i] is the one row of [F] features computed from graph [i] alone, [F]
    being fixed by [order] and [moments]; and on the collection read at
    other positions (a permutation, for one) that the input check accepts,
    [fit] succeeds and the blocks are the same blocks at those positions. *)
Theorem fit_then_get_embedding `{Estimator} (self : GeoScattering)
        (graphs : list graph) :
  snd (fit self graphs) = Ok tt ->
  exists rows : list vector,
    get_embedding (fst (fit self graphs))
    = Ok (np_array (map (fun f => [f]) rows)) /\
    Forall2 (fun g f =>
               _calculate_geoscattering self g = Ok [f] /\
               length f = feature_length (order self) (moments self))
            graphs rows /\
    forall idx,
      _check_graphs (reorder idx graphs) = Ok tt ->
      snd (fit self (reorder idx graphs)) = Ok tt /\
      get_embedding (fst (fit self (reorder idx graphs)))
      = Ok (np_array (map (fun f => [f]) (reorder idx rows))).
Proof.
  intros Hfit. destruct (fit_ok self graphs Hfit) as (rows & Hck & Hrows & ->).
  destruct (one_row_blocks self graphs rows Hrows) as [Hshape Hall].
  exists (map (hd []) rows). split; [|split].
  - unfold get_embedding. cbn [fst set_embedding _embedding].
    do 2 f_equal. exact Hshape.
  - exact Hall.
  - intros idx Hidx. unfold fit. rewrite Hidx.
    rewrite (mapM_reorder _ _ _ idx Hrows).
    unfold get_embedding. cbn [fst snd set_embedding _embedding].
    split; [reflexivity|]. rewrite <- reorder_map.
    do 3 f_equal. exact Hshape.
Qed.

Lemma fit_then_get_embedding_witness :
  snd (@fit accept_all (__init__ 1 2) [K2; K2]) = Ok tt /\
  exists rows : list vector,
    get_embedding (fst (@fit accept_all (__init__ 1 2) [K2; K2]))
    = Ok (np_array (map (fun f => [f]) rows)) /\
    Forall2 (fun g f =>
               _calculate_geoscattering (__init__ 1 2) g = Ok [f] /\
               length f = feature_length 1 2)
            [K2; K2] rows.
Proof.
  assert (Hfit : snd (@fit accept_all (__init__ 1 2) [K2; K2]) = Ok tt).
  { destruct (calculate_geoscattering_ok (__init__ 1 2) K2 eq_refl
                                         K2_connected K2_degrees)
      as (X & _ & Hf).
    unfold fit. cbn [_check_graphs accept_all mapM]. rewrite Hf. reflexivity. }
  split; [exact Hfit|].
  destruct (@fit_then_get_embedding accept_all (__init__ 1 2) [K2; K2] Hfit)
    as (rows & Hget & Hall & _).
  exists rows. split; assumption.
Defined.

(** ** Failures *)

Lemma get_normalized_adjacency_degree_zero g v :
  (v < number_of_nodes g)%nat -> degree g v = O ->
  _get_normalized_adjacency g = Raise ZeroDivisionError.
Proof.
  intros Hv Hz. unfold _get_normalized_adjacency, adjacency_matrix.
  destruct (Nat.eqb_spec (number_of_nodes g) 0); [lia|]. cbn [bind].
  unfold _create_D_inverse.
  rewrite (mapM_raise_only _ (nodes g) v ZeroDivisionError); [reflexivity| | |].
  - intros x _. destruct (degree g x =? 0)%nat; eauto.
  - apply in_seq. lia.
  - now rewrite Hz.
Qed.

Lemma calculate_geoscattering_degree_zero self g v :
  (v < number_of_nodes g)%nat -> degree g v = O ->
  _calculate_geoscattering self g = Raise ZeroDivisionError.
Proof.
  intros Hv Hz. unfold _calculate_geoscattering.
  now rewrite (get_normalized_adjacency_degree_zero g v).
Qed.

Lemma calculate_geoscattering_disconnected self g :
  undirected g = true -> disconnected g ->
  exists e, _calculate_geoscattering self g = Raise e.
Proof.
  intros Hu Hd. unfold _calculate_geoscattering.
  destruct (_get_normalized_adjacency g) as [A_hat|e]; cbn [bind]; [|eauto].
  rewrite create_node_feature_matrix_disconnected by assumption. cbn. eauto.
Qed.

Lemma two_edges_disconnected : disconnected two_edges.
Proof.
  exists 0%nat, 2%nat. split; [cbn; lia|]. split; [cbn; lia|].
  assert (H : forall v, reachable two_edges 0 v -> (v < 2)%nat).
  { intros v Hr. induction Hr as [|x y _ IH Hy]; [lia|].
    destruct x as [|[|x]]; [| |lia]; cbn in Hy; lia. }
  intros Hr. apply H in Hr. lia.
Qed.

(** C8, as stated, fails: in the collection made of two disjoint edges
    followed by a single isolated node, a graph has a node of degree 0, yet
    the batch stops on the first graph with networkx's error for an
    infinite path length; no division by zero is ever attempted. *)
Lemma degree_zero_error_preempted :
  (exists g v, In g [two_edges; isolated_node] /\
               (v < number_of_nodes g)%nat /\ degree g v = O) /\
  @fit accept_all (__init__ 4 4) [two_edges; isolated_node]
  = (__init__ 4 4, Raise NetworkXError).
Proof.
  split.
  - exists isolated_node, O. split; [right; now left|]. split; [cbn; lia|].
    reflexivity.
  - eval_py. reflexivity.
Qed.

(** C8, amended.  When a collection contains a graph with a node of degree
    0, the construction of the normalized operator of that graph raises
    [ZeroDivisionError]; [fit] raises and leaves the estimator as it was, so
    that no output row is produced; and the exception of [fit] is that
    [ZeroDivisionError] when the input check accepts the collection and
    every graph placed before that one is processed without error. *)
Theorem degree_zero_aborts `{Estimator} (self : GeoScattering)
        (graphs : list graph) (g : graph) :
  In g graphs ->
  (exists v, (v < number_of_nodes g)%nat /\ degree g v = O) ->
  _get_normalized_adjacency g = Raise ZeroDivisionError /\
  (exists e, fit self graphs = (self, Raise e)) /\
  (forall before after,
      graphs = before ++ g :: after ->
      _check_graphs graphs = Ok tt ->
      Forall (fun g' => exists m, _calculate_geoscattering self g' = Ok m)
             before ->
      fit self graphs = (self, Raise ZeroDivisionError)).
Proof.
  intros Hin (v & Hv & Hz).
  pose proof (calculate_geoscattering_degree_zero self g v Hv Hz) as Hg.
  split; [now apply (get_normalized_adjacency_degree_zero g v)|]. split.
  - apply (fit_raise self graphs g Hin). eauto.
  - intros before after -> Hck Hbefore. unfold fit. rewrite Hck.
    now rewrite (mapM_raise_at _ before g after ZeroDivisionError Hbefore Hg).
Qed.

Lemma degree_zero_aborts_witness :
  _get_normalized_adjacency isolated_node = Raise ZeroDivisionError /\
  (exists e, @fit accept_all (__init__ 4 4) [K2; isolated_node]
             = (__init__ 4 4, Raise e)) /\
  @fit accept_all (__init__ 4 4) [K2; isolated_node]
  = (__init__ 4 4, Raise ZeroDivisionError).
Proof.
  assert (Hin : In isolated_node [K2; isolated_node]) by (right; now left).
  assert (Hv : exists v, (v < number_of_nodes isolated_node)%nat /\
                         degree isolated_node v = O)
    by (exists O; split; [cbn; lia|reflexivity]).
  destruct (@degree_zero_aborts accept_all (__init__ 4 4)
              [K2; isolated_node] isolated_node Hin Hv) as (H1 & H2 & H3).
  split; [exact H1|]. split; [exact H2|].
  apply (H3 [K2] []); [reflexivity|reflexivity|].
  constructor; [|constructor].
  destruct (calculate_geoscattering_ok (__init__ 4 4) K2 eq_refl
                                       K2_connected K2_degrees)
    as (X & _ & Hf).
  eauto.
Defined.

(** C9. On every disconnected graph the extraction of the node features
    raises networkx's error for an infinite path length (the spec's
    DisconnectedGraphError) while computing an eccentricity, and [fit] on
    any collection that contains the graph raises and leaves the estimator
    as it was. *)
Theorem disconnected_graph_aborts `{Estimator} (self : GeoScattering)
        (graphs : list graph) (g : graph) :
  undirected g = true -> disconnected g -> In g graphs ->
  _create_node_feature_matrix g = Raise NetworkXError /\
  (exists v, (v < number_of_nodes g)%nat /\
             eccentricity g v = Raise NetworkXError) /\
  exists e, fit self graphs = (self, Raise e).
Proof.
  intros Hu Hd Hin.
  split; [now apply create_node_feature_matrix_disconnected|]. split.
  - destruct Hd as (u & w & Hlu & Hlw & Hnr). exists u. split; [assumption|].
    apply eccentricity_disconnected; auto. now exists u, w.
  - apply (fit_raise self graphs g Hin).
    now apply calculate_geoscattering_disconnected.
Qed.

Lemma disconnected_graph_aborts_witness :
  _create_node_feature_matrix two_edges = Raise NetworkXError /\
  (exists v, (v < number_of_nodes two_edges)%nat /\
             eccentricity two_edges v = Raise NetworkXError) /\
  exists e, @fit accept_all (__init__ 4 4) [K2; two_edges]
            = (__init__ 4 4, Raise e).
Proof.
  apply (@disconnected_graph_aborts accept_all (__init__ 4 4)
           [K2; two_edges] two_edges).
  - reflexivity.
  - exact two_edges_disconnected.
  - right. now left.
Defined.

(** ** The embedding attribute *)

Lemma fit_embedding `{Estimator} self graphs :
  (snd (fit self graphs) = Ok tt /\ _embedding (fst (fit self graphs)) <> None)
  \/ (snd (fit self graphs) <> Ok tt /\ fst (fit self graphs) = self).
Proof.
  unfold fit. destruct (_check_graphs graphs) as [u|e]; [|right; easy].
  destruct (mapM _ graphs) as [rows|e]; [left|right]; easy.
Qed.

Lemma fit_all_embedding `{Estimator} calls : forall self,
  _embedding (fst (fit_all self calls)) <> None
  <-> _embedding self <> None \/ In (Ok tt) (snd (fit_all self calls)).
Proof.
  induction calls as [|graphs calls IH]; intros self; cbn [fit_all].
  - cbn. tauto.
  - destruct (fit self graphs) as [self' outcome] eqn:Ef.
    specialize (IH self').
    destruct (fit_all self' calls) as [self'' outcomes]. cbn [fst snd] in *.
    rewrite IH. pose proof (fit_embedding self graphs) as Hf.
    rewrite Ef in Hf. cbn [fst snd] in Hf. cbn [In].
    destruct Hf as [[-> Hs]|[Hne ->]]; [tauto|].
    split; [tauto|]. intros [?|[?|?]]; auto; congruence.
Qed.

(** C10. On a new estimator [get_embedding] raises ([AttributeError]: the
    attribute is created by [fit] only), and after any sequence of calls
    of [fit] on it, [get_embedding] returns if and only if one of these
    calls has completed; otherwise it still raises. *)
Theorem get_embedding_defined_iff_fit `{Estimator} (order moments : Z)
        (calls : list (list graph)) :
  get_embedding (__init__ order moments) = Raise AttributeError /\
  ((exists a, get_embedding (fst (fit_all (__init__ order moments) calls)) = Ok a)
   <-> In (Ok tt) (snd (fit_all (__init__ order moments) calls))) /\
  (~ In (Ok tt) (snd (fit_all (__init__ order moments) calls)) ->
   get_embedding (fst (fit_all (__init__ order moments) calls))
   = Raise AttributeError).
Proof.
  split; [reflexivity|].
  pose proof (fit_all_embedding calls (__init__ order moments)) as H0.
  cbn [_embedding __init__] in H0. unfold get_embedding.
  destruct (_embedding (fst (fit_all (__init__ order moments) calls)))
    as [rows|].
  - assert (Hin : In (Ok tt) (snd (fit_all (__init__ order moments) calls))).
    { destruct H0 as [H0 _]. destruct H0 as [H0|H0]; [discriminate|easy|easy]. }
    split; [split; eauto|]. intros Hn. contradiction.
  - assert (Hn : ~ In (Ok tt) (snd (fit_all (__init__ order moments) calls))).
    { intros Hin. destruct H0 as [_ H0]. now apply H0; [right|]. }
    split; [|reflexivity]. split; [intros [a Ha]; discriminate|].
    intros Hin. contradiction.
Qed.

(** * Further properties of the estimator *)

(** ** More on loops *)

Lemma forM_raise_at {A S} (body : A -> S -> result S) before a after e :
  (forall b s, In b before -> exists s', body b s = Ok s') ->
  (forall s, body a s = Raise e) ->
  forall s, forM (before ++ a :: after) body s = Raise e.
Proof.
  intros Hb Ha. induction before as [|b before IH]; intros s; cbn.
  - now rewrite Ha.
  - destruct (Hb b s (or_introl eq_refl)) as [s' ->]. cbn.
    apply IH. intros b' s0 Hin. apply Hb. now right.
Qed.

Lemma flat_map_nil {A B} (l : list A) : flat_map (fun _ => @nil B) l = [].
Proof. induction l as [|a l IH]; cbn; auto. Qed.

Lemma map_seq_from {A} (f : nat -> A) b : forall a,
  map f (seq a b) = map (fun k => f (a + k)%nat) (seq 0 b).
Proof.
  induction b as [|b IH]; intros a; cbn [seq map]; [reflexivity|].
  rewrite Nat.add_0_r. f_equal.
  rewrite IH, <- (seq_shift b 0), map_map.
  apply map_ext. intros k. f_equal. lia.
Qed.

Lemma range_split lo mid hi :
  (lo <= mid < hi)%Z -> range lo hi = range lo mid ++ mid :: range (mid + 1) hi.
Proof.
  intros H. rewrite <- (range_cons mid hi) by lia. unfold range.
  replace (Z.to_nat (hi - lo))
    with (Z.to_nat (mid - lo) + Z.to_nat (hi - mid))%nat by lia.
  rewrite seq_app, map_app. f_equal. cbn [Nat.add].
  rewrite map_seq_from. apply map_ext. intros k. lia.
Qed.

Lemma dot_mismatch M x row :
  In row M -> length row <> length x -> dot M x = Raise ValueError.
Proof.
  intros Hin Hne. unfold dot.
  destruct (forallb _ M) eqn:E; [|reflexivity].
  rewrite forallb_forall in E. apply E, Nat.eqb_eq in Hin. contradiction.
Qed.

(** ** First-order block *)

(** X1. The first-order features on three columns and any bank of square
    matrices of the size of the columns: no exception, one row of
    [3 * len(Psi) * (moments - 1)] numbers, and the number at position
    [(col * len(Psi) + k) * (moments - 1) + q - 1] is the sum of
    [|Psi_k . |x_col||^q]. *)
Theorem first_order_features_spec (self : GeoScattering)
        (Psi : list matrix) (X : columns) (n : nat) :
  (1 <= moments self)%Z ->
  length X = 3%nat -> Forall (fun x => length x = n) X ->
  Forall (has_shape n n) Psi ->
  exists features,
    _get_first_order_features self Psi X = Ok [features] /\
    Z.of_nat (length features)
    = (3 * Z.of_nat (length Psi) * (moments self - 1))%Z /\
    forall col k q,
      (col < 3)%nat -> (k < length Psi)%nat -> (1 <= q < moments self)%Z ->
      nth ((col * length Psi + k) * Z.to_nat (moments self - 1)
           + Z.to_nat (q - 1)) features 0
      = np_sum (map (fun v => Rabs v ^ Z.to_nat q)
                    (mv (nth k Psi []) (np_abs (nth col X [])))).
Proof.
  intros Hm HX HXn HPsi.
  exists (first_order_block (moments self) Psi X).
  split; [now apply (first_order_features_closed self Psi X n)|]. split.
  - rewrite first_order_block_length, HX.
    rewrite !Nat2Z.inj_mul, Z2Nat.id by lia. lia.
  - intros col k q Hcol Hk Hq. unfold first_order_block.
    set (m := Z.to_nat (moments self - 1)).
    replace ((col * length Psi + k) * m + Z.to_nat (q - 1))%nat
      with (col * (length Psi * m) + (k * m + Z.to_nat (q - 1)))%nat by lia.
    rewrite (nth_flat_map_const _ X (length Psi * m) col _ []).
    + rewrite (nth_flat_map_const _ Psi m k _ []).
      * set (f := fun q0 => np_sum (map (fun v => Rabs v ^ Z.to_nat q0)
                                        (mv (nth k Psi [])
                                            (np_abs (nth col X []))))).
        rewrite (nth_indep _ 0 (f 0%Z))
          by (rewrite length_map, range_length; lia).
        rewrite (map_nth f), nth_range by lia. unfold f.
        replace (1 + Z.of_nat (Z.to_nat (q - 1)))%Z with q by lia.
        reflexivity.
      * intros psi. rewrite length_map, range_length. reflexivity.
      * assumption.
      * unfold m. lia.
    + intros x. apply length_flat_map_const. intros psi _.
      rewrite length_map, range_length. reflexivity.
    + lia.
    + unfold m. nia.
Qed.

Lemma first_order_features_spec_witness :
  exists features,
    _get_first_order_features (__init__ 1 3) [[[2]]; [[-1]]] [[1]; [-1]; [0]]
    = Ok [features] /\
    Z.of_nat (length features) = (3 * Z.of_nat 2 * (3 - 1))%Z.
Proof.
  assert (H3 : Forall (fun x : list R => length x = 1%nat) [[1]; [-1]; [0]])
    by (repeat constructor).
  assert (H4 : Forall (has_shape 1 1) [[[2]]; [[-1]]]) by (repeat constructor).
  assert (H1 : (1 <= moments (__init__ 1 3))%Z) by (cbn; lia).
  destruct (first_order_features_spec (__init__ 1 3) [[[2]]; [[-1]]]
              [[1]; [-1]; [0]] 1%nat H1 eq_refl H3 H4) as (f & Hf & Hl & _).
  exists f. split; assumption.
Defined.

(** X2. A wavelet whose number of columns is not the number of nodes makes the
    first-order features raise [ValueError], already on the first column
    and the first wavelet. *)
Theorem first_order_dimension_mismatch (self : GeoScattering)
        (psi : matrix) (Psi : list matrix) (x : vector) (X : columns) :
  (exists row, In row psi /\ length row <> length x) ->
  _get_first_order_features self (psi :: Psi) (x :: X) = Raise ValueError.
Proof.
  intros (row & Hin & Hne). unfold _get_first_order_features.
  cbn [map length seq forM nth].
  rewrite (dot_mismatch psi _ row); [reflexivity|assumption|].
  now rewrite !np_abs_length.
Qed.

Lemma first_order_dimension_mismatch_witness :
  _get_first_order_features (__init__ 4 4) [[[1; 2]]] [[1]] = Raise ValueError.
Proof.
  apply (first_order_dimension_mismatch (__init__ 4 4) [[1; 2]] [] [1] []).
  exists [1; 2]. split; [now left|]. cbn. lia.
Defined.

(** ** Second-order block: bounds and degenerate orders *)

(** X3. With [order <= 1] the second-order loop nest has no pair to visit: the
    block is the empty row whatever the bank and the columns, and nothing
    is raised, not even on an empty or ill-shaped bank. *)
Theorem second_order_small_order (self : GeoScattering)
        (Psi : list matrix) (X : columns) :
  (order self <= 1)%Z ->
  _get_second_order_features self Psi X = Ok [[]].
Proof.
  intros Ho. unfold _get_second_order_features.
  rewrite (forM_append (fun _ => [])).
  - cbn [bind app]. now rewrite flat_map_nil.
  - intros col s _. rewrite range_empty by lia. cbn. now rewrite app_nil_r.
Qed.

Lemma second_order_small_order_witness :
  _get_second_order_features (__init__ 1 4) [] [[1]; [2]; [3]] = Ok [[]].
Proof.
  apply (second_order_small_order (__init__ 1 4) [] [[1]; [2]; [3]]).
  cbn. lia.
Defined.

(** X4. A bank shorter than [order] makes the second-order features raise
    [IndexError] (for [order >= 2] and at least one column): the pairs
    [(0, j)] are processed until [j] reaches the length of the bank. *)
Theorem second_order_short_bank (self : GeoScattering)
        (Psi : list matrix) (x : vector) (X : columns) (n : nat) :
  (2 <= order self)%Z -> (Z.of_nat (length Psi) < order self)%Z ->
  Forall (has_shape n n) Psi -> length x = n ->
  _get_second_order_features self Psi (x :: X) = Raise IndexError.
Proof.
  intros Ho Hlen HPsi Hx. unfold _get_second_order_features.
  cbn [map length seq forM nth].
  rewrite (range_cons 0) by lia. cbn [forM].
  destruct Psi as [|psi0 Psi'] eqn:EPsi.
  - rewrite (range_cons (0 + 1)) by lia. cbn [forM]. reflexivity.
  - rewrite <- EPsi in *.
    assert (HL : (1 <= Z.of_nat (length Psi))%Z) by (rewrite EPsi; cbn; lia).
    rewrite (range_split (0 + 1) (Z.of_nat (length Psi)) (order self)) by lia.
    rewrite (forM_raise_at _ _ _ _ IndexError); [reflexivity| |].
    + intros j s Hj. apply in_range in Hj.
      assert (Hnth : forall k, (0 <= k < Z.of_nat (length Psi))%Z ->
                               has_shape n n (nth (Z.to_nat k) Psi [])).
      { intros k Hk. rewrite Forall_forall in HPsi. apply HPsi.
        apply nth_In. lia. }
      rewrite (getitem_ok Psi 0 []), (getitem_ok Psi j []) by lia.
      cbn [bind].
      rewrite (dot_ok n) by (rewrite ?np_abs_length; auto; apply Hnth; lia).
      cbn [bind].
      rewrite (dot_ok n); [cbn [bind]; eauto|apply Hnth; lia|].
      rewrite np_abs_length, mv_length. apply (Hnth 0%Z). lia.
    + intros s. rewrite (getitem_ok Psi 0 []) by lia. cbn [bind].
      unfold getitem. destruct (Z.ltb_spec (Z.of_nat (length Psi)) 0); [lia|].
      destruct (Z.ltb_spec (Z.of_nat (length Psi)) 0); [lia|].
      rewrite Nat2Z.id.
      replace (nth_error Psi (length Psi)) with (@None matrix);
        [reflexivity|].
      symmetry. apply nth_error_None. lia.
Qed.

Lemma second_order_short_bank_witness :
  _get_second_order_features (__init__ 3 4) [[[1]]; [[2]]] [[1]; [2]; [3]]
  = Raise IndexError.
Proof.
  apply (second_order_short_bank (__init__ 3 4) [[[1]]; [[2]]] [1]
                                 [[2]; [3]] 1%nat).
  - cbn. lia.
  - cbn. lia.
  - repeat constructor.
  - reflexivity.
Defined.

(** ** The inverse degree matrix and the operator: outcomes *)

Lemma coo_diagonal_entry values i j :
  (i < length values)%nat -> (j < length values)%nat ->
  nth j (nth i (coo_diagonal values) []) 0
  = if (i =? j)%nat then nth i values 0 else 0.
Proof.
  intros Hi Hj. unfold coo_diagonal. now rewrite !nth_map_seq.
Qed.

Lemma coo_diagonal_shape values :
  has_shape (length values) (length values) (coo_diagonal values).
Proof.
  unfold coo_diagonal. split.
  - now rewrite length_map, length_seq.
  - apply Forall_map, Forall_forall. intros i _.
    now rewrite length_map, length_seq.
Qed.

Lemma create_D_inverse_raise g v :
  (v < number_of_nodes g)%nat -> degree g v = O ->
  _create_D_inverse g = Raise ZeroDivisionError.
Proof.
  intros Hv Hz. unfold _create_D_inverse.
  rewrite (mapM_raise_only _ (nodes g) v ZeroDivisionError); [reflexivity| | |].
  - intros x _. destruct (degree g x =? 0)%nat; eauto.
  - apply in_seq. lia.
  - now rewrite Hz.
Qed.

(** X5. [_create_D_inverse] returns exactly when no node has degree 0 (so it
    returns the empty matrix on the graph without nodes), raises
    [ZeroDivisionError] otherwise, and what it returns is the [n x n]
    matrix with [1 / degree(i)] at [(i, i)] and [0] elsewhere. *)
Theorem create_D_inverse_spec (g : graph) :
  ((exists D, _create_D_inverse g = Ok D)
   <-> (forall v, (v < number_of_nodes g)%nat -> degree g v <> O)) /\
  ((exists v, (v < number_of_nodes g)%nat /\ degree g v = O)
   -> _create_D_inverse g = Raise ZeroDivisionError) /\
  (forall D, _create_D_inverse g = Ok D ->
     has_shape (number_of_nodes g) (number_of_nodes g) D /\
     forall i j, (i < number_of_nodes g)%nat -> (j < number_of_nodes g)%nat ->
       nth j (nth i D []) 0
       = if (i =? j)%nat then 1 / INR (degree g i) else 0).
Proof.
  assert (Hinv : forall D, _create_D_inverse g = Ok D ->
                 forall v, (v < number_of_nodes g)%nat -> degree g v <> O).
  { intros D HD v Hv Hz.
    rewrite (create_D_inverse_raise g v Hv Hz) in HD. discriminate. }
  split; [split|split].
  - intros [D HD]. now apply (Hinv D).
  - intros Hd. rewrite create_D_inverse_ok by assumption. eauto.
  - intros (v & Hv & Hz). now apply (create_D_inverse_raise g v).
  - intros D HD. rewrite create_D_inverse_ok in HD by now apply (Hinv D).
    injection HD as <-.
    assert (Hl : length (map (fun v => 1 / INR (degree g v)) (nodes g))
                 = number_of_nodes g)
      by (unfold nodes; now rewrite length_map, length_seq).
    split.
    + rewrite <- Hl at 1 2. apply coo_diagonal_shape.
    + intros i j Hi Hj. rewrite coo_diagonal_entry by (rewrite Hl; assumption).
      unfold nodes. now rewrite nth_map_seq.
Qed.

(** X6. The three outcomes of [_get_normalized_adjacency]: networkx's error on
    the graph without nodes, [ZeroDivisionError] when a node has degree 0,
    and otherwise the operator [0.5 * (I + D^-1 A)]; it returns in the last
    case only. *)
Theorem normalized_adjacency_outcomes (g : graph) :
  (number_of_nodes g = O ->
   _get_normalized_adjacency g = Raise NetworkXError) /\
  ((exists v, (v < number_of_nodes g)%nat /\ degree g v = O) ->
   _get_normalized_adjacency g = Raise ZeroDivisionError) /\
  ((0 < number_of_nodes g)%nat ->
   (forall v, (v < number_of_nodes g)%nat -> degree g v <> O) ->
   _get_normalized_adjacency g = Ok (normalized_operator g)) /\
  ((exists A_hat, _get_normalized_adjacency g = Ok A_hat)
   <-> (0 < number_of_nodes g)%nat /\
       forall v, (v < number_of_nodes g)%nat -> degree g v <> O).
Proof.
  split; [|split; [|split]].
  - intros Hn. unfold _get_normalized_adjacency, adjacency_matrix.
    now rewrite Hn.
  - intros (v & Hv & Hz). now apply (get_normalized_adjacency_degree_zero g v).
  - apply get_normalized_adjacency_closed.
  - split.
    + intros [A_hat HA]. apply get_normalized_adjacency_inv in HA. tauto.
    + intros [Hn Hd]. rewrite get_normalized_adjacency_closed; eauto.
Qed.

(** ** The operator and the wavelets: values *)

Lemma INR_ge_1 d : d <> O -> 1 <= INR d.
Proof.
  intros Hd. change 1 with (INR 1). apply le_INR. lia.
Qed.

Lemma inv_degree_bounds d : d <> O -> 0 < 1 / INR d <= 1.
Proof.
  intros Hd. pose proof (INR_ge_1 d Hd) as H1.
  assert (H0 : 0 < INR d) by lra.
  split.
  - apply Rdiv_lt_0_compat; lra.
  - apply (Rmult_le_reg_r (INR d)); [assumption|].
    unfold Rdiv. rewrite Rmult_assoc, Rinv_l by lra. lra.
Qed.

(** X7. On a simple graph the operator has [0.5] on its diagonal and every
    entry lies between [0] and [0.5]. *)
Theorem normalized_operator_entries (g : graph) (A_hat : matrix) :
  simple g = true -> _get_normalized_adjacency g = Ok A_hat ->
  forall i j, (i < number_of_nodes g)%nat -> (j < number_of_nodes g)%nat ->
    (i = j -> nth j (nth i A_hat []) 0 = 0.5) /\
    0 <= nth j (nth i A_hat []) 0 <= 0.5.
Proof.
  intros Hs HA i j Hi Hj.
  apply get_normalized_adjacency_inv in HA. destruct HA as (Hn & Hd & ->).
  unfold normalized_operator. rewrite !nth_map_seq by assumption.
  pose proof (inv_degree_bounds (degree g i) (Hd i Hi)) as Hb.
  destruct (Nat.eqb_spec i j) as [<-|Hne].
  - rewrite simple_no_loop by assumption. split; [intros _|]; lra.
  - split; [contradiction|]. destruct (mem j (neighbors g i)); lra.
Qed.

Lemma normalized_operator_entries_witness :
  (0%nat = 0%nat -> nth 0 (nth 0 A_hat_K2 []) 0 = 0.5) /\
  0 <= nth 0 (nth 0 A_hat_K2 []) 0 <= 0.5.
Proof.
  apply (normalized_operator_entries K2 A_hat_K2 eq_refl
                                     normalized_adjacency_K2 0%nat 0%nat).
  - cbn. lia.
  - cbn. lia.
Defined.

Lemma two_pow_to_nat k :
  (0 <= k)%Z -> Z.to_nat (2 ^ (k + 1)) = (Z.to_nat (2 ^ k) * 2)%nat.
Proof.
  intros Hk. rewrite Z.pow_add_r, Z.pow_1_r by lia.
  rewrite Z2Nat.inj_mul by (try apply Z.pow_nonneg; lia). reflexivity.
Qed.

Lemma two_pow_pos k : (0 <= k)%Z -> (1 <= Z.to_nat (2 ^ k))%nat.
Proof.
  intros Hk. pose proof (Z.pow_pos_nonneg 2 k ltac:(lia) Hk). lia.
Qed.

Lemma dyadic_difference_bounds a k :
  (0 <= k)%Z -> 0 <= a <= 1 ->
  0 <= a ^ Z.to_nat (2 ^ k) - a ^ Z.to_nat (2 ^ (k + 1)) <= 1 / 4.
Proof.
  intros Hk Ha. rewrite two_pow_to_nat, pow_mult by assumption.
  set (y := a ^ Z.to_nat (2 ^ k)).
  assert (Hy : 0 <= y <= 1).
  { unfold y. split; [apply pow_le; lra|].
    rewrite <- (pow1 (Z.to_nat (2 ^ k))). apply pow_incr. lra. }
  clearbody y. cbn [pow].
  pose proof (Rle_0_sqr (y - 1 / 2)) as Hsq. unfold Rsqr in Hsq.
  split; nra.
Qed.

(** X8. When the entries of the operator lie between 0 and 1, every entry of
    every wavelet of the bank lies between [0] and [1/4]. *)
Theorem wavelet_entries_bounded (self : GeoScattering) (A_hat : matrix) :
  Forall (Forall (fun a => 0 <= a <= 1)) A_hat ->
  Forall (Forall (Forall (fun w => 0 <= w <= 1 / 4)))
         (_calculate_wavelets self A_hat).
Proof.
  intros HA. rewrite calculate_wavelets_entries.
  apply Forall_map, Forall_forall. intros k Hk. apply in_range in Hk.
  apply Forall_map. eapply Forall_impl; [|exact HA]. intros row Hrow.
  apply Forall_map. eapply Forall_impl; [|exact Hrow]. intros a Ha.
  apply dyadic_difference_bounds; [lia|assumption].
Qed.

Lemma wavelet_entries_bounded_witness :
  Forall (Forall (Forall (fun w => 0 <= w <= 1 / 4)))
         (_calculate_wavelets (__init__ 4 4) A_hat_K2).
Proof.
  apply (wavelet_entries_bounded (__init__ 4 4) A_hat_K2).
  unfold A_hat_K2. repeat constructor; lra.
Defined.

Lemma zero_pow_dyadic k :
  (0 <= k)%Z -> 0 ^ Z.to_nat (2 ^ k) - 0 ^ Z.to_nat (2 ^ (k + 1)) = 0.
Proof.
  intros Hk. rewrite !pow_i; [ring| |].
  - pose proof (two_pow_pos (k + 1) ltac:(lia)). lia.
  - pose proof (two_pow_pos k Hk). lia.
Qed.

(** X9. No wavelet of the bank, at any scale, couples two distinct nodes that
    are not adjacent: its entry at [(i, j)] is 0. *)
Theorem wavelets_couple_neighbours_only (self : GeoScattering) (g : graph)
        (A_hat Psi : matrix) (i j : nat) :
  _get_normalized_adjacency g = Ok A_hat ->
  In Psi (_calculate_wavelets self A_hat) ->
  (i < number_of_nodes g)%nat -> (j < number_of_nodes g)%nat ->
  i <> j -> ~ In j (neighbors g i) ->
  nth j (nth i Psi []) 0 = 0.
Proof.
  intros HA HPsi Hi Hj Hne Hnadj.
  apply get_normalized_adjacency_inv in HA. destruct HA as (Hn & Hd & ->).
  rewrite calculate_wavelets_entries in HPsi.
  apply in_map_iff in HPsi. destruct HPsi as (k & <- & Hk).
  apply in_range in Hk.
  set (h := fun a => a ^ Z.to_nat (2 ^ k) - a ^ Z.to_nat (2 ^ (k + 1))).
  change [] with (map h []) at 1. rewrite map_nth.
  rewrite <- (zero_pow_dyadic k) at 1 by lia.
  change (0 ^ Z.to_nat (2 ^ k) - 0 ^ Z.to_nat (2 ^ (k + 1))) with (h 0).
  rewrite map_nth. unfold normalized_operator.
  rewrite !nth_map_seq by assumption.
  destruct (Nat.eqb_spec i j); [contradiction|].
  apply mem_not_In in Hnadj. rewrite Hnadj. unfold h.
  replace (0.5 * (0 + 1 / INR (degree g i) * 0)) with 0 by lra.
  apply zero_pow_dyadic. lia.
Qed.

(** On the path on three nodes, 0 and 2 are not adjacent. *)
Lemma wavelets_couple_neighbours_only_witness :
  nth 2 (nth 0 (hd [] (_calculate_wavelets
                         (__init__ 4 4)
                         (normalized_operator
                            [[1%nat]; [0%nat; 2%nat]; [1%nat]]))) []) 0
  = 0.
Proof.
  apply (wavelets_couple_neighbours_only
           (__init__ 4 4) [[1%nat]; [0%nat; 2%nat]; [1%nat]]
           (normalized_operator [[1%nat]; [0%nat; 2%nat]; [1%nat]])).
  - apply get_normalized_adjacency_closed; [cbn; lia|].
    intros v Hv. cbn in Hv. destruct v as [|[|[|v]]]; cbn; lia.
  - unfold _calculate_wavelets. cbn [order __init__].
    rewrite range_cons by lia. now left.
  - cbn. lia.
  - cbn. lia.
  - lia.
  - cbn. lia.
Defined.

(** X10. The operator is reversible with respect to the degrees: for two
    distinct nodes of an undirected graph,
    [degree(i) * A_hat[i, j] = degree(j) * A_hat[j, i]]. *)
Theorem normalized_operator_reversible (g : graph) (A_hat : matrix)
        (i j : nat) :
  undirected g = true -> _get_normalized_adjacency g = Ok A_hat ->
  (i < number_of_nodes g)%nat -> (j < number_of_nodes g)%nat -> i <> j ->
  INR (degree g i) * nth j (nth i A_hat []) 0
  = INR (degree g j) * nth i (nth j A_hat []) 0.
Proof.
  intros Hu HA Hi Hj Hne.
  apply get_normalized_adjacency_inv in HA. destruct HA as (Hn & Hd & ->).
  unfold normalized_operator. rewrite !nth_map_seq by assumption.
  destruct (Nat.eqb_spec i j); [contradiction|].
  destruct (Nat.eqb_spec j i); [congruence|].
  assert (Hsym : mem j (neighbors g i) = mem i (neighbors g j)).
  { destruct (mem j (neighbors g i)) eqn:E1, (mem i (neighbors g j)) eqn:E2;
      try reflexivity.
    - apply mem_In in E1. apply (undirected_edge g i j Hu Hi) in E1.
      destruct E1 as [_ E1]. apply mem_In in E1. congruence.
    - apply mem_In in E2. apply (undirected_edge g j i Hu Hj) in E2.
      destruct E2 as [_ E2]. apply mem_In in E2. congruence. }
  rewrite Hsym.
  assert (INR (degree g i) <> 0) by (apply not_0_INR; auto).
  assert (INR (degree g j) <> 0) by (apply not_0_INR; auto).
  destruct (mem i (neighbors g j)).
  - replace (INR (degree g i) * (0.5 * (0 + 1 / INR (degree g i) * 1)))
      with (0.5 * (INR (degree g i) * / INR (degree g i))) by (field; auto).
    replace (INR (degree g j) * (0.5 * (0 + 1 / INR (degree g j) * 1)))
      with (0.5 * (INR (degree g j) * / INR (degree g j))) by (field; auto).
    rewrite !Rinv_r by assumption. reflexivity.
  - lra.
Qed.

Lemma normalized_operator_reversible_witness :
  INR (degree [[1%nat]; [0%nat; 2%nat]; [1%nat]] 0)
  * nth 1 (nth 0 (normalized_operator [[1%nat]; [0%nat; 2%nat]; [1%nat]]) []) 0
  = INR (degree [[1%nat]; [0%nat; 2%nat]; [1%nat]] 1)
    * nth 0 (nth 1 (normalized_operator [[1%nat]; [0%nat; 2%nat]; [1%nat]]) []) 0.
Proof.
  apply (normalized_operator_reversible [[1%nat]; [0%nat; 2%nat]; [1%nat]]).
  - reflexivity.
  - apply get_normalized_adjacency_closed; [cbn; lia|].
    intros v Hv. cbn in Hv. destruct v as [|[|[|v]]]; cbn; lia.
  - cbn. lia.
  - cbn. lia.
  - lia.
Defined.

(** ** The node features *)

Lemma eccentricity_ok_reaches g v e :
  undirected g = true -> (v < number_of_nodes g)%nat ->
  eccentricity g v = Ok e ->
  forall x, (x < number_of_nodes g)%nat -> reachable g v x.
Proof.
  intros Hu Hv He x Hx. unfold eccentricity in He.
  destruct (Nat.eqb_spec (length (shortest_path_length g v))
                         (number_of_nodes g)) as [E|_]; [|discriminate].
  pose proof (shortest_path_length_inv g v Hu Hv) as I.
  apply shortest_path_length_reaches; auto.
  assert (Hall : incl (seq 0 (number_of_nodes g))
                      (keys (shortest_path_length g v))).
  { apply NoDup_length_incl; [apply (inv_nodup _ _ _ _ I)| |].
    - unfold keys. rewrite length_map, length_seq. lia.
    - intros y Hy. apply in_seq. apply (inv_sound _ _ _ _ I) in Hy. lia. }
  apply Hall. apply in_seq. lia.
Qed.

Lemma create_node_feature_matrix_inv g X :
  _create_node_feature_matrix g = Ok X ->
  exists ecc,
    mapM (fun node => e <- eccentricity g node ;; Ok (INR e)) (nodes g)
    = Ok ecc /\
    X = [map (fun node => ln (INR (degree g node + 1))) (nodes g);
         ecc; map (clustering g) (nodes g)].
Proof.
  unfold _create_node_feature_matrix.
  destruct (mapM _ (nodes g)) as [ecc|e]; cbn; [|discriminate].
  intros H. injection H as <-. eauto.
Qed.

Lemma mapM_Forall_result {A B} (f : A -> result B) (P : B -> Prop) l bs :
  (forall a b, f a = Ok b -> P b) -> mapM f l = Ok bs -> Forall P bs.
Proof.
  intros HP H. apply mapM_Forall2 in H.
  induction H as [|a b l' bs' Hab _ IH]; constructor; eauto.
Qed.

Lemma clustering_nonneg g v : 0 <= clustering g v.
Proof.
  unfold clustering.
  destruct (list_sum _ =? 0)%nat; [lra|].
  unfold Rdiv. apply Rmult_le_pos; [apply pos_INR|].
  set (m := (length _ * (length _ - 1))%nat).
  destruct (Nat.eq_dec m 0) as [->|Hm].
  - cbn [INR]. rewrite Rinv_0. lra.
  - left. apply Rinv_0_lt_compat. apply lt_0_INR. lia.
Qed.

Lemma log_degree_nonneg d : 0 <= ln (INR (d + 1)).
Proof.
  rewrite <- ln_1. rewrite Nat.add_1_r, S_INR.
  pose proof (pos_INR d) as Hd. destruct Hd as [Hd|<-].
  - left. apply ln_increasing; lra.
  - right. f_equal. lra.
Qed.

(** X11. The node feature matrix, whenever it is built, has three columns of
    one entry per node, all of them non-negative, so that the [np.abs] the
    aggregation applies to it changes nothing. *)
Theorem node_features_nonnegative (g : graph) (X : columns) :
  _create_node_feature_matrix g = Ok X ->
  length X = 3%nat /\
  Forall (fun x => length x = number_of_nodes g) X /\
  Forall (Forall (fun v => 0 <= v)) X /\
  map np_abs X = X.
Proof.
  intros HX.
  destruct (create_node_feature_matrix_shape g X HX) as [H3 Hn].
  assert (Hpos : Forall (Forall (fun v => 0 <= v)) X).
  { destruct (create_node_feature_matrix_inv g X HX) as (ecc & Hecc & ->).
    constructor; [|constructor; [|constructor; [|constructor]]].
    - apply Forall_map, Forall_forall. intros v _. apply log_degree_nonneg.
    - eapply mapM_Forall_result; [|exact Hecc]. intros v b Hb.
      cbn beta in Hb.
      destruct (eccentricity g v) as [e|]; cbn in Hb; [|discriminate].
      injection Hb as <-. apply pos_INR.
    - apply Forall_map, Forall_forall. intros v _. apply clustering_nonneg. }
  repeat split; try assumption.
  rewrite <- (map_id X) at 2. apply map_ext_in. intros x Hx.
  rewrite Forall_forall in Hpos. specialize (Hpos x Hx).
  unfold np_abs. rewrite <- (map_id x) at 2. apply map_ext_in. intros v Hv.
  rewrite Forall_forall in Hpos. apply Rabs_pos_eq. now apply Hpos.
Qed.

Lemma K2_node_features : exists X, _create_node_feature_matrix K2 = Ok X.
Proof. exact (create_node_feature_matrix_ok K2 eq_refl K2_connected). Qed.

Lemma node_features_nonnegative_witness :
  exists X, _create_node_feature_matrix K2 = Ok X /\
            length X = 3%nat /\ map np_abs X = X.
Proof.
  destruct K2_node_features as [X HX]. exists X.
  destruct (node_features_nonnegative K2 X HX) as (H3 & _ & _ & Habs).
  repeat split; assumption.
Defined.

Lemma create_node_feature_matrix_connected g X :
  undirected g = true -> (0 < number_of_nodes g)%nat ->
  _create_node_feature_matrix g = Ok X -> connected g.
Proof.
  intros Hu Hn HX. split; [assumption|]. intros u v Hlu Hlv.
  destruct (create_node_feature_matrix_inv g X HX) as (ecc & Hecc & _).
  destruct (mapM_ok_inv _ _ _ u Hecc ltac:(apply in_seq; lia)) as [b Hb].
  cbn beta in Hb.
  destruct (eccentricity g u) as [e|] eqn:He; cbn in Hb; [|discriminate].
  now apply (eccentricity_ok_reaches g u e).
Qed.

(** X12. On an undirected graph with at least one node the node features are
    built exactly when the graph is connected. *)
Theorem node_features_iff_connected (g : graph) :
  undirected g = true -> (0 < number_of_nodes g)%nat ->
  ((exists X, _create_node_feature_matrix g = Ok X) <-> connected g).
Proof.
  intros Hu Hn. split.
  - intros [X HX]. now apply (create_node_feature_matrix_connected g X).
  - now apply create_node_feature_matrix_ok.
Qed.

Lemma node_features_iff_connected_witness :
  (exists X, _create_node_feature_matrix K2 = Ok X) <-> connected K2.
Proof.
  apply (node_features_iff_connected K2).
  - reflexivity.
  - cbn. lia.
Defined.

(** ** Which graphs the pipeline accepts *)

Lemma calculate_geoscattering_inv self g m :
  _calculate_geoscattering self g = Ok m ->
  exists X, _get_normalized_adjacency g = Ok (normalized_operator g) /\
            _create_node_feature_matrix g = Ok X /\
            m = [feature_row self (normalized_operator g) X].
Proof.
  intros H.
  destruct (_get_normalized_adjacency g) as [A_hat|e] eqn:EA;
    [|unfold _calculate_geoscattering in H; rewrite EA in H; discriminate].
  destruct (_create_node_feature_matrix g) as [X|e] eqn:EX;
    [|unfold _calculate_geoscattering in H; rewrite EA, EX in H; discriminate].
  apply get_normalized_adjacency_inv in EA. destruct EA as (Hn & Hd & ->).
  rewrite (calculate_geoscattering_closed self g X Hn Hd EX) in H.
  injection H as <-. eauto.
Qed.

(** X13. The features of an undirected graph are computed exactly when the
    graph is connected and none of its nodes has degree 0. *)
Theorem pipeline_accepts_iff (self : GeoScattering) (g : graph) :
  undirected g = true ->
  ((exists m, _calculate_geoscattering self g = Ok m)
   <-> connected g /\
       forall v, (v < number_of_nodes g)%nat -> degree g v <> O).
Proof.
  intros Hu. split.
  - intros [m Hm].
    destruct (calculate_geoscattering_inv self g m Hm) as (X & HA & HX & _).
    apply get_normalized_adjacency_inv in HA. destruct HA as (Hn & Hd & _).
    split; [|assumption].
    now apply (create_node_feature_matrix_connected g X).
  - intros [Hc Hd].
    destruct (calculate_geoscattering_ok self g Hu Hc) as (X & _ & ->); eauto.
    intros v Hv. specialize (Hd v Hv). lia.
Qed.

Lemma pipeline_accepts_iff_witness :
  (exists m, _calculate_geoscattering (__init__ 4 4) K2 = Ok m)
  <-> connected K2 /\
      forall v, (v < number_of_nodes K2)%nat -> degree K2 v <> O.
Proof.
  apply (pipeline_accepts_iff (__init__ 4 4) K2). reflexivity.
Defined.

Lemma reachable_first_step g v u :
  reachable g v u -> u <> v -> neighbors g v <> [].
Proof.
  intros Hr. induction Hr as [|x w _ IH Hw]; intros Hne; [contradiction|].
  destruct (Nat.eq_dec x v) as [->|Hx]; [|now apply IH].
  intros E. rewrite E in Hw. contradiction.
Qed.

Lemma connected_degrees g :
  connected g -> (2 <= number_of_nodes g)%nat ->
  forall v, (v < number_of_nodes g)%nat -> (1 <= degree g v)%nat.
Proof.
  intros [_ Hc] Hn v Hv.
  assert (Hu : exists u, (u < number_of_nodes g)%nat /\ u <> v).
  { destruct v as [|v]; [exists 1%nat|exists 0%nat]; lia. }
  destruct Hu as (u & Hu & Hne).
  pose proof (reachable_first_step g v u (Hc v u Hv Hu) Hne) as Hnb.
  unfold degree. destruct (neighbors g v); [contradiction|]. cbn. lia.
Qed.

(** X14. For an undirected graph with at least two nodes connectivity is
    enough: a connected graph has no node of degree 0, and its features
    are computed, one row of them. *)
Theorem connected_graph_accepted (self : GeoScattering) (g : graph) :
  undirected g = true -> connected g -> (2 <= number_of_nodes g)%nat ->
  (forall v, (v < number_of_nodes g)%nat -> (1 <= degree g v)%nat) /\
  exists features,
    _calculate_geoscattering self g = Ok [features] /\
    length features = feature_length (order self) (moments self).
Proof.
  intros Hu Hc Hn. pose proof (connected_degrees g Hc Hn) as Hd.
  split; [exact Hd|].
  destruct (calculate_geoscattering_ok self g Hu Hc Hd) as (X & HX & Hf).
  eexists. split; [exact Hf|].
  apply feature_row_length. now apply (create_node_feature_matrix_shape g).
Qed.

Lemma connected_graph_accepted_witness :
  (forall v, (v < number_of_nodes K2)%nat -> (1 <= degree K2 v)%nat) /\
  exists features,
    _calculate_geoscattering (__init__ 4 4) K2 = Ok [features] /\
    length features = feature_length 4 4.
Proof.
  apply (connected_graph_accepted (__init__ 4 4) K2).
  - reflexivity.
  - exact K2_connected.
  - cbn. lia.
Defined.

(** ** The feature row *)

(** X15. How the row of one graph is laid out: the zero-order block first, then
    the first-order block, then the second-order block, each as the
    corresponding function returns it on the node features and the bank of
    the graph; the first block has [3 * max(order, 0)] numbers, the second
    [3 * max(order + 1, 0) * max(moments - 1, 0)]. *)
Theorem feature_row_layout (self : GeoScattering) (g : graph)
        (features : vector) :
  _calculate_geoscattering self g = Ok [features] ->
  exists A_hat X zero first second,
    _get_normalized_adjacency g = Ok A_hat /\
    _create_node_feature_matrix g = Ok X /\
    _get_zero_order_features self X = [zero] /\
    _get_first_order_features self (_calculate_wavelets self A_hat) X
    = Ok [first] /\
    _get_second_order_features self (_calculate_wavelets self A_hat) X
    = Ok [second] /\
    features = zero ++ first ++ second /\
    length zero = (3 * Z.to_nat (order self))%nat /\
    length first
    = (3 * (Z.to_nat (order self + 1) * Z.to_nat (moments self - 1)))%nat.
Proof.
  intros H.
  destruct (calculate_geoscattering_inv self g _ H) as (X & HA & HX & E).
  injection E as ->.
  destruct (create_node_feature_matrix_shape g X HX) as [H3 Hcols].
  pose proof (calculate_wavelets_shape self _ _ _ (normalized_operator_shape g))
    as HPsi.
  exists (normalized_operator g), X, (zero_order_block (order self) X),
    (first_order_block (moments self)
       (_calculate_wavelets self (normalized_operator g)) X),
    (second_order_block (order self) (moments self)
       (_calculate_wavelets self (normalized_operator g)) X).
  split; [assumption|]. split; [assumption|].
  split; [apply zero_order_features_closed|].
  split; [now apply (first_order_features_closed _ _ _ (number_of_nodes g))|].
  split.
  { apply (second_order_features_closed _ _ _ (number_of_nodes g)); auto.
    rewrite calculate_wavelets_length. lia. }
  split; [unfold feature_row; now rewrite app_assoc|].
  rewrite zero_order_block_length, first_order_block_length,
    calculate_wavelets_length, H3.
  split; reflexivity.
Qed.

Lemma calculate_geoscattering_K2 self :
  exists features, _calculate_geoscattering self K2 = Ok [features].
Proof.
  destruct (calculate_geoscattering_ok self K2 eq_refl K2_connected K2_degrees)
    as (X & _ & Hf).
  eauto.
Qed.

Lemma feature_row_layout_witness :
  exists features zero first second,
    _calculate_geoscattering (__init__ 4 4) K2 = Ok [features] /\
    features = zero ++ first ++ second /\
    length zero = 12%nat /\ length first = 45%nat.
Proof.
  destruct (calculate_geoscattering_K2 (__init__ 4 4)) as [features Hf].
  destruct (feature_row_layout (__init__ 4 4) K2 features Hf)
    as (A_hat & X & zero & first & second & _ & _ & _ & _ & _ & E & Hz & H1).
  exists features, zero, first, second. repeat split; assumption.
Defined.

Lemma moment_nonneg (y : vector) (q : Z) :
  0 <= np_sum (map (fun v => Rabs v ^ Z.to_nat q) y).
Proof.
  unfold np_sum. induction y as [|a y IH]; cbn [map fold_right]; [lra|].
  pose proof (pow_le (Rabs a) (Z.to_nat q) (Rabs_pos a)). lra.
Qed.

Lemma Forall_flat_map {A B} (P : B -> Prop) (F : A -> list B) l :
  (forall a, In a l -> Forall P (F a)) -> Forall P (flat_map F l).
Proof.
  intros H. apply Forall_forall. intros b Hb. apply in_flat_map in Hb.
  destruct Hb as (a & Ha & Hb). specialize (H a Ha).
  rewrite Forall_forall in H. now apply H.
Qed.

(** X16. Every feature is a sum of powers of absolute values: no feature of an
    accepted graph is negative. *)
Theorem features_nonnegative (self : GeoScattering) (g : graph)
        (features : vector) :
  _calculate_geoscattering self g = Ok [features] ->
  Forall (fun v => 0 <= v) features.
Proof.
  intros H.
  destruct (calculate_geoscattering_inv self g _ H) as (X & _ & _ & E).
  injection E as ->. unfold feature_row.
  apply Forall_app; split; [apply Forall_app; split|].
  - apply Forall_flat_map. intros x _. apply Forall_map, Forall_forall.
    intros q _. apply moment_nonneg.
  - apply Forall_flat_map. intros x _. apply Forall_flat_map. intros psi _.
    apply Forall_map, Forall_forall. intros q _. apply moment_nonneg.
  - apply Forall_flat_map. intros x _. apply Forall_flat_map. intros ij _.
    apply Forall_map, Forall_forall. intros q _. apply moment_nonneg.
Qed.

Lemma features_nonnegative_witness :
  exists features,
    _calculate_geoscattering (__init__ 4 4) K2 = Ok [features] /\
    Forall (fun v => 0 <= v) features.
Proof.
  destruct (calculate_geoscattering_K2 (__init__ 4 4)) as [features Hf].
  exists features. split; [exact Hf|].
  exact (features_nonnegative (__init__ 4 4) K2 features Hf).
Defined.

(** X17. Two graphs processed by one estimator give rows of the same length,
    whatever their sizes and whatever the two hyperparameters (negative
    ones included). *)
Theorem rows_have_one_length (self : GeoScattering) (g g' : graph)
        (features features' : vector) :
  _calculate_geoscattering self g = Ok [features] ->
  _calculate_geoscattering self g' = Ok [features'] ->
  length features = length features'.
Proof.
  intros H H'.
  destruct (calculate_geoscattering_row self g _ H) as (f & E & Hl).
  destruct (calculate_geoscattering_row self g' _ H') as (f' & E' & Hl').
  injection E as ->. injection E' as ->. congruence.
Qed.

Lemma P3_connected : connected P3.
Proof.
  split; [cbn; lia|]. intros u v Hu Hv. cbn in Hu, Hv.
  assert (H0 : forall w, (w < 3)%nat -> reachable P3 0 w).
  { intros w Hw.
    assert (H1 : reachable P3 0 1)
      by (apply (reach_step P3 0 0 1); [constructor|now left]).
    destruct w as [|[|[|w]]]; [constructor|exact H1| |lia].
    apply (reach_step P3 0 1 2); [exact H1|right; now left]. }
  apply reachable_trans with 0%nat; [|now apply H0].
  apply reachable_sym; [reflexivity|cbn; lia|now apply H0].
Qed.

Lemma rows_have_one_length_witness :
  exists features features',
    _calculate_geoscattering (__init__ 4 4) K2 = Ok [features] /\
    _calculate_geoscattering (__init__ 4 4) P3 = Ok [features'] /\
    length features = length features'.
Proof.
  destruct (calculate_geoscattering_K2 (__init__ 4 4)) as [f Hf].
  assert (Hd : forall v, (v < number_of_nodes P3)%nat -> (1 <= degree P3 v)%nat)
    by (intros v Hv; cbn in Hv; destruct v as [|[|[|v]]]; cbn; lia).
  destruct (calculate_geoscattering_ok (__init__ 4 4) P3 eq_refl
                                       P3_connected Hd) as (X & _ & Hf').
  exists f. eexists. split; [exact Hf|]. split; [exact Hf'|].
  exact (rows_have_one_length (__init__ 4 4) K2 P3 _ _ Hf Hf').
Defined.

Lemma flat_map_nil_in {A B} (F : A -> list B) l :
  (forall a, In a l -> F a = []) -> flat_map F l = [].
Proof.
  induction l as [|a l IH]; intros H; cbn; [reflexivity|].
  rewrite H by now left. apply IH. intros; apply H; now right.
Qed.

(** X18. Degenerate hyperparameters are not rejected.  With [moments <= 1] the
    row of an accepted graph is its zero-order block alone; with
    [order < 0] it is empty. *)
Theorem degenerate_hyperparameters (self : GeoScattering) (g : graph)
        (features : vector) :
  _calculate_geoscattering self g = Ok [features] ->
  ((moments self <= 1)%Z ->
   exists X, _create_node_feature_matrix g = Ok X /\
             _get_zero_order_features self X = [features]) /\
  ((order self < 0)%Z -> features = []).
Proof.
  intros H.
  destruct (calculate_geoscattering_inv self g _ H) as (X & _ & HX & E).
  injection E as ->. unfold feature_row. split.
  - intros Hm. exists X. split; [assumption|].
    rewrite zero_order_features_closed. do 2 f_equal.
    unfold first_order_block, second_order_block.
    rewrite !(range_empty 1 (moments self)) by lia. cbn [map].
    rewrite (flat_map_nil_in _ X) by (intros; apply flat_map_nil).
    rewrite (flat_map_nil_in _ X) by (intros; apply flat_map_nil).
    now rewrite !app_nil_r.
  - intros Ho. unfold zero_order_block, first_order_block, second_order_block.
    rewrite calculate_wavelets_entries.
    unfold pairs.
    rewrite !(range_empty _ (order self + 1)), (range_empty 0 (order self - 1))
      by lia.
    cbn [map flat_map].
    now rewrite !(flat_map_nil_in _ X) by reflexivity.
Qed.

Lemma degenerate_hyperparameters_witness :
  exists features,
    _calculate_geoscattering (__init__ (-1) 4) K2 = Ok [features] /\
    features = [].
Proof.
  destruct (calculate_geoscattering_K2 (__init__ (-1) 4)) as [features Hf].
  exists features. split; [exact Hf|].
  destruct (degenerate_hyperparameters (__init__ (-1) 4) K2 features Hf)
    as [_ H].
  apply H. cbn. lia.
Defined.

(** ** Zero-order features and the numbering of the nodes *)

Lemma np_sum_permutation x y : Permutation x y -> np_sum x = np_sum y.
Proof.
  unfold np_sum. induction 1; cbn; try lra; congruence.
Qed.

(** X19. The zero-order features do not depend on the order in which the nodes
    are listed: permuting the entries of the columns leaves them
    unchanged. *)
Theorem zero_order_permutation_invariant (self : GeoScattering)
        (X X' : columns) :
  Forall2 (@Permutation R) X X' ->
  _get_zero_order_features self X = _get_zero_order_features self X'.
Proof.
  intros H. rewrite !zero_order_features_closed. f_equal.
  unfold zero_order_block.
  induction H as [|x x' X X' Hx _ IH]; cbn [flat_map]; [reflexivity|].
  rewrite IH. f_equal. apply map_ext. intros q.
  apply np_sum_permutation. now apply Permutation_map.
Qed.

Lemma zero_order_permutation_invariant_witness :
  _get_zero_order_features (__init__ 4 4) [[1; 2; 3]; [0; 1; 0]; [5; 6; 7]]
  = _get_zero_order_features (__init__ 4 4) [[3; 1; 2]; [0; 0; 1]; [7; 6; 5]].
Proof.
  apply (zero_order_permutation_invariant (__init__ 4 4)).
  constructor; [|constructor; [|constructor; [|constructor]]].
  - apply Permutation_sym.
    apply (Permutation_cons_app [1; 2] [] 3). apply Permutation_refl.
  - apply (perm_skip 0). apply perm_swap.
  - apply (perm_trans (l' := [6; 5; 7])); [apply perm_swap|].
    apply (perm_trans (l' := [6; 7; 5])); [apply perm_skip, perm_swap|].
    apply perm_swap.
Defined.

(** ** Fitting: outcomes and composition *)

Lemma mapM_ok_iff {A B} (f : A -> result B) l :
  (exists bs, mapM f l = Ok bs) <-> Forall (fun a => exists b, f a = Ok b) l.
Proof.
  split.
  - intros [bs H]. apply Forall_forall. intros a Ha.
    now apply (mapM_ok_inv f l bs a).
  - induction 1 as [|a l (b & Hb) _ (bs & IH)]; cbn; [eauto|].
    rewrite Hb, IH. cbn. eauto.
Qed.

(** X20. [fit] on undirected graphs completes exactly when the input check
    accepts the collection and every graph of it is connected without a
    node of degree 0. *)
Theorem fit_succeeds_iff `{Estimator} (self : GeoScattering)
        (graphs : list graph) :
  Forall (fun g => undirected g = true) graphs ->
  (snd (fit self graphs) = Ok tt
   <-> _check_graphs graphs = Ok tt /\
       Forall (fun g => connected g /\
                        forall v, (v < number_of_nodes g)%nat ->
                                  degree g v <> O) graphs).
Proof.
  intros Hu. split.
  - intros Hfit. destruct (fit_ok self graphs Hfit) as (rows & Hck & Hrows & _).
    split; [assumption|]. apply Forall_forall. intros g Hg.
    destruct (mapM_ok_inv _ _ _ g Hrows Hg) as [m Hm].
    destruct (calculate_geoscattering_inv self g m Hm) as (X & HA & HX & _).
    apply get_normalized_adjacency_inv in HA. destruct HA as (Hn & Hd & _).
    split; [|assumption].
    rewrite Forall_forall in Hu.
    now apply (create_node_feature_matrix_connected g X (Hu g Hg)).
  - intros [Hck Hall]. unfold fit. rewrite Hck.
    assert (Hok : exists rows, mapM (_calculate_geoscattering self) graphs
                               = Ok rows).
    { apply mapM_ok_iff, Forall_forall. intros g Hg.
      rewrite Forall_forall in Hu, Hall. destruct (Hall g Hg) as [Hc Hd].
      destruct (calculate_geoscattering_ok self g (Hu g Hg) Hc) as (X & _ & ->);
        eauto.
      intros v Hv. specialize (Hd v Hv). lia. }
    destruct Hok as [rows ->]. reflexivity.
Qed.

Lemma fit_succeeds_iff_witness :
  snd (@fit accept_all (__init__ 4 4) [K2; P3]) = Ok tt
  <-> @_check_graphs accept_all [K2; P3] = Ok tt /\
      Forall (fun g => connected g /\
                       forall v, (v < number_of_nodes g)%nat ->
                                 degree g v <> O) [K2; P3].
Proof.
  apply (@fit_succeeds_iff accept_all (__init__ 4 4) [K2; P3]).
  repeat constructor.
Defined.

(** X21. [fit] stops at the first failure: when the input check raises, that
    exception is the outcome and no graph is processed; otherwise the
    outcome is the exception of the first graph that fails, whatever comes
    after it.  In both cases the estimator is left as it was. *)
Theorem fit_first_failure `{Estimator} (self : GeoScattering)
        (before after : list graph) (g : graph) (e : exn) :
  Forall (fun g' => exists m, _calculate_geoscattering self g' = Ok m)
         before ->
  _calculate_geoscattering self g = Raise e ->
  (_check_graphs (before ++ g :: after) = Ok tt ->
   fit self (before ++ g :: after) = (self, Raise e)) /\
  (forall e', _check_graphs (before ++ g :: after) = Raise e' ->
              fit self (before ++ g :: after) = (self, Raise e')).
Proof.
  intros Hb Hg. split.
  - intros Hck. unfold fit. rewrite Hck.
    now rewrite (mapM_raise_at _ before g after e Hb Hg).
  - intros e' Hck. unfold fit. now rewrite Hck.
Qed.

Lemma fit_first_failure_witness :
  @fit accept_all (__init__ 4 4) ([K2] ++ two_edges :: [isolated_node])
  = (__init__ 4 4, Raise NetworkXError).
Proof.
  assert (Hb : Forall (fun g' => exists m,
                         _calculate_geoscattering (__init__ 4 4) g' = Ok m)
                      [K2]).
  { constructor; [|constructor].
    destruct (calculate_geoscattering_K2 (__init__ 4 4)) as [f Hf]. eauto. }
  assert (Hg : _calculate_geoscattering (__init__ 4 4) two_edges
               = Raise NetworkXError) by (eval_py; reflexivity).
  destruct (@fit_first_failure accept_all (__init__ 4 4) [K2]
              [isolated_node] two_edges NetworkXError Hb Hg) as [H1 _].
  apply H1. reflexivity.
Defined.

(** X22. On the empty collection, when the input check lets it through, [fit]
    completes, and [get_embedding] then returns the empty one-dimensional
    array: no row, and no trace of the feature length. *)
Theorem fit_empty_collection `{Estimator} (self : GeoScattering) :
  _check_graphs [] = Ok tt ->
  snd (fit self []) = Ok tt /\
  get_embedding (fst (fit self [])) = Ok (array1 []).
Proof.
  intros Hck. unfold fit. rewrite Hck. cbn. split; reflexivity.
Qed.

Lemma fit_empty_collection_witness :
  snd (@fit accept_all (__init__ 4 4) []) = Ok tt /\
  get_embedding (fst (@fit accept_all (__init__ 4 4) [])) = Ok (array1 []).
Proof.
  apply (@fit_empty_collection accept_all (__init__ 4 4)). reflexivity.
Defined.

Lemma calculate_geoscattering_hyper self self' g :
  order self = order self' -> moments self = moments self' ->
  _calculate_geoscattering self g = _calculate_geoscattering self' g.
Proof.
  destruct self as [o m e], self' as [o' m' e']. cbn. intros <- <-.
  reflexivity.
Qed.

Lemma mapM_ext {A B} (f f' : A -> result B) l :
  (forall a, f a = f' a) -> mapM f l = mapM f' l.
Proof.
  intros Hf. induction l as [|a l IH]; cbn; [reflexivity|].
  now rewrite Hf, IH.
Qed.

Lemma fit_hyper `{Estimator} self self' graphs :
  order self = order self' -> moments self = moments self' ->
  snd (fit self graphs) = snd (fit self' graphs) /\
  (snd (fit self graphs) = Ok tt ->
   _embedding (fst (fit self graphs)) = _embedding (fst (fit self' graphs))).
Proof.
  intros Ho Hm. unfold fit.
  rewrite (mapM_ext _ _ graphs
             (fun g => calculate_geoscattering_hyper self self' g Ho Hm)).
  destruct (_check_graphs graphs); [|split; [reflexivity|discriminate]].
  destruct (mapM _ graphs); split; try reflexivity. discriminate.
Qed.

Lemma fit_keeps_hyper `{Estimator} self graphs :
  order (fst (fit self graphs)) = order self /\
  moments (fst (fit self graphs)) = moments self.
Proof.
  unfold fit. destruct (_check_graphs graphs); [|split; reflexivity].
  destruct (mapM _ graphs); split; reflexivity.
Qed.

Lemma last_completed_hyper `{Estimator} self self' calls :
  order self = order self' -> moments self = moments self' ->
  last_completed self calls = last_completed self' calls.
Proof.
  intros Ho Hm. induction calls as [|graphs calls IH]; cbn; [reflexivity|].
  rewrite IH. destruct (fit_hyper self self' graphs Ho Hm) as [-> _].
  reflexivity.
Qed.

Lemma last_completed_ok `{Estimator} self calls graphs :
  last_completed self calls = Some graphs -> snd (fit self graphs) = Ok tt.
Proof.
  induction calls as [|c calls IH]; cbn; [discriminate|].
  destruct (last_completed self calls) as [c'|].
  - intros E. injection E as ->. now apply IH.
  - destruct (snd (fit self c)) as [[]|e] eqn:Ec; [|discriminate].
    intros E. injection E as <-. exact Ec.
Qed.

Lemma fit_all_last `{Estimator} calls : forall self,
  order (fst (fit_all self calls)) = order self /\
  moments (fst (fit_all self calls)) = moments self /\
  _embedding (fst (fit_all self calls))
  = match last_completed self calls with
    | Some graphs => _embedding (fst (fit self graphs))
    | None => _embedding self
    end.
Proof.
  induction calls as [|graphs calls IH]; intros self; cbn [fit_all].
  - cbn. auto.
  - destruct (fit self graphs) as [self1 outcome] eqn:Ef.
    destruct (IH self1) as (Ho & Hm & He).
    destruct (fit_all self1 calls) as [self2 outcomes]. cbn [fst] in *.
    destruct (fit_keeps_hyper self graphs) as [Ho1 Hm1].
    rewrite Ef in Ho1, Hm1. cbn [fst] in Ho1, Hm1.
    split; [congruence|]. split; [congruence|].
    cbn [last_completed].
    rewrite <- (last_completed_hyper self1 self calls Ho1 Hm1).
    rewrite He. destruct (last_completed self1 calls) as [c|] eqn:El.
    + apply last_completed_ok in El.
      destruct (fit_hyper self1 self c Ho1 Hm1) as [_ Hemb]. now apply Hemb.
    + rewrite Ef. cbn [snd fst].
      pose proof (fit_embedding self graphs) as Hf. rewrite Ef in Hf.
      cbn [fst snd] in Hf.
      destruct outcome as [[]|e]; [now rewrite Ef|].
      destruct Hf as [[Hf _]|[_ ->]]; [discriminate|reflexivity].
Qed.

(** X23. Successive calls of [fit] do not accumulate: after any sequence of
    calls on a new estimator, [get_embedding] returns what it returns
    after the last completed call alone (and raises when no call
    completed), and the two hyperparameters are those given at
    construction. *)
Theorem embedding_of_last_completed_call `{Estimator} (order_ moments_ : Z)
        (calls : list (list graph)) :
  get_embedding (fst (fit_all (__init__ order_ moments_) calls))
  = match last_completed (__init__ order_ moments_) calls with
    | Some graphs => get_embedding (fst (fit (__init__ order_ moments_) graphs))
    | None => Raise AttributeError
    end /\
  order (fst (fit_all (__init__ order_ moments_) calls)) = order_ /\
  moments (fst (fit_all (__init__ order_ moments_) calls)) = moments_.
Proof.
  destruct (fit_all_last calls (__init__ order_ moments_)) as (Ho & Hm & He).
  split; [|split; assumption].
  unfold get_embedding. rewrite He.
  now destruct (last_completed (__init__ order_ moments_) calls).
Qed.
